(** * Bond-Loan Investment Simulator: the calculation block of [app.py]

    The script reads its inputs from Streamlit widgets, computes the Bond 1
    interest, the loan's EMI and amortization schedule, the Bond 2 lump-sum
    and SIP growth, the tax figures and the final returns, and renders them.
    This development embeds lines 26-100 and 134-142 of [app.py] (inputs,
    calculations, growth projection); rendering is left out.

    Numbers.  Python floats and NumPy float64 values are idealised as exact
    rationals ([Q], compared with [==]); rounding and overflow are outside
    the model.  Python ints are [Z].  What the two kinds of division do on a
    zero divisor is kept apart: a Python float division raises
    [ZeroDivisionError], a NumPy division yields inf or nan and carries on. *)

From Stdlib Require Import ZArith QArith Qpower Qabs Qfield List String Bool Lia Lqa.
Import ListNotations.
Local Open Scope Q_scope.

(** ** Outcomes of a run *)

Inductive exn : Type :=
| ZeroDivisionError
| KeyError.

(** [NonFinite]: NumPy produced inf or nan (a RuntimeWarning, no exception).
    The script would carry on with that value; the model stops there and
    says nothing about the rest of such a run. *)
Inductive outcome (A : Type) : Type :=
| Ok (a : A)
| Raise (e : exn)
| NonFinite.

Arguments Ok {A} a.
Arguments Raise {A} e.
Arguments NonFinite {A}.

Definition bind {A B : Type} (c : outcome A) (k : A -> outcome B) : outcome B :=
  match c with
  | Ok a => k a
  | Raise e => Raise e
  | NonFinite => NonFinite
  end.

Declare Scope outcome_scope.
Delimit Scope outcome_scope with outcome.
Notation "x <- c ;; k" := (bind c (fun x => k))
  (at level 61, c at next level, right associativity) : outcome_scope.
Local Open Scope outcome_scope.

(** ** Arithmetic primitives *)

(** Python [a / b] on floats (or ints): true division. *)
Definition py_truediv (a b : Q) : outcome Q :=
  if Qeq_bool b 0 then Raise ZeroDivisionError else Ok (a / b).

(** Python [a ** n] with a float base and an int exponent. *)
Definition py_pow (a : Q) (n : Z) : outcome Q :=
  if Qeq_bool a 0 && (n <? 0)%Z then Raise ZeroDivisionError else Ok (a ^ n).

(** NumPy [a / b] on float64. *)
Definition np_truediv (a b : Q) : outcome Q :=
  if Qeq_bool b 0 then NonFinite else Ok (a / b).

(** NumPy [a ** n] with a float64 base and an integer exponent. *)
Definition np_power (a : Q) (n : Z) : outcome Q :=
  if Qeq_bool a 0 && (n <? 0)%Z then NonFinite else Ok (a ^ n).

(** Python [range(a, b)]. *)
Definition py_range (a b : Z) : list Z :=
  map (fun i => (a + Z.of_nat i)%Z) (seq 0 (Z.to_nat (b - a))).

(** Python [needle in s] on strings. *)
Fixpoint contains (needle s : string) : bool :=
  if prefix needle s then true
  else match s with
       | EmptyString => false
       | String _ s' => contains needle s'
       end.

(** ** numpy_financial *)

Module numpy_financial.

(** [pmt], [ipmt] and [ppmt] are imported from the numpy_financial package,
    whose code is not part of [app.py].  Spec 4.1 describes what they
    compute: "Monthly rate = annualRatePct/12/100.  EMI = principal x r x
    (1+r)^n / ((1+r)^n - 1); if r == 0, EMI = principal/n", "interestPortion
    = remainingPrincipal_before x r; principalPortion = EMI - interestPortion".
    The definitions below are written in the package's own shape (a payment
    is negative for a positive loan; [when] is 0 for payments at the end of
    a period, the default the script uses; [fv] is the balance wanted after
    the last payment, default 0), so that the spec's formulas are theorems
    about them and not their text. *)

(** Modelled from the spec: numpy_financial's [fv(rate, nper, pmt, pv, when)],
    absent from src/: minus the balance left after [nper] payments, the
    "remainingPrincipal" of spec 4.1 in closed form. *)
Definition fv (rate : Q) (nper : Z) (pmt pv when : Q) : outcome Q :=
  if Qeq_bool rate 0 then Ok (- (pv + pmt * inject_Z nper))
  else
    temp <- np_power (1 + rate) nper ;;
    Ok (- pv * temp - pmt * (1 + rate * when) / rate * (temp - 1)).

(** Modelled from the spec: numpy_financial's [pmt(rate, nper, pv, fv=0,
    when='end')], absent from src/: the payment per period, the "EMI" of
    spec 4.1 with its sign flipped; where the rate is 0 the divisor is the
    number of periods. *)
Definition pmt (rate : Q) (nper : Z) (pv fv when : Q) : outcome Q :=
  temp <- np_power (1 + rate) nper ;;
  let mask := Qeq_bool rate 0 in
  let masked_rate := if mask then 1 else rate in
  let fact := if mask then inject_Z nper
              else (1 + masked_rate * when) * (temp - 1) / masked_rate in
  np_truediv (- (fv + pv * temp)) fact.

(** Modelled from the spec: numpy_financial's [_rbl], absent from src/: the
    remaining balance on the loan before payment [per]. *)
Definition _rbl (rate : Q) (per : Z) (pmt pv when : Q) : outcome Q :=
  fv rate (per - 1) pmt pv when.

(** Modelled from the spec: numpy_financial's [ipmt(rate, per, nper, pv,
    fv=0, when='end')], absent from src/, for payments at the end of the
    period: "interestPortion = remainingPrincipal_before x r".  Periods
    before the first have no payment (nan). *)
Definition ipmt (rate : Q) (per nper : Z) (pv fv : Q) : outcome Q :=
  total_pmt <- pmt rate nper pv fv 0 ;;
  rbl <- _rbl rate per total_pmt pv 0 ;;
  if (per <? 1)%Z then NonFinite else Ok (rbl * rate).

(** Modelled from the spec: numpy_financial's [ppmt(rate, per, nper, pv,
    fv=0, when='end')], absent from src/: "principalPortion = EMI -
    interestPortion". *)
Definition ppmt (rate : Q) (per nper : Z) (pv fv : Q) : outcome Q :=
  total <- pmt rate nper pv fv 0 ;;
  i <- ipmt rate per nper pv fv ;;
  Ok (total - i).

End numpy_financial.

(** ** The script *)

Module app.

(** *** Inputs (lines 26-39) *)

(** The options of the "Investor Type" select box. *)
Definition investor_types : list string :=
  ["Individual (30%)"; "Private Ltd (25%)"; "Custom Rate"]%string.

(** What the widgets hand to the script.  [custom_rate] is the "Tax Rate (%)"
    slider, shown (and read) only when the investor type is "Custom Rate". *)
Record Inputs : Type := {
  initial : Z;
  bond1_rate : Q;
  bond2_rate : Q;
  loan_rate : Q;
  months : Z;
  investor_type : string;
  custom_rate : Q;
  bond2_tax : Q
}.

Definition tax_rate (i : Inputs) : Q :=
  if String.eqb (investor_type i) "Custom Rate" then custom_rate i
  else if contains "Individual" (investor_type i) then 30 else 25.

(** The ranges the widgets enforce: [number_input(min, max)] and
    [slider(min, max)]. *)
Definition in_widget_range (i : Inputs) : Prop :=
  (100000 <= initial i <= 10000000)%Z /\
  1 <= bond1_rate i <= 30 /\
  1 <= bond2_rate i <= 30 /\
  1 <= loan_rate i <= 20 /\
  (1 <= months i <= 60)%Z /\
  In (investor_type i) investor_types /\
  (1 # 10) <= custom_rate i <= 35 /\
  0 <= bond2_tax i <= 30.

(** *** Bond 1 (line 43) *)

Definition monthly_bond1_interest (initial : Z) (bond1_rate : Q) : Q :=
  inject_Z initial * (bond1_rate / 12 / 100).

(** *** Loan (lines 46-64) *)

Definition rate_per_period (loan_rate : Q) : Q := loan_rate / 12 / 100.

Definition emi (loan_rate : Q) (months initial : Z) : outcome Q :=
  p <- numpy_financial.pmt (rate_per_period loan_rate) months (inject_Z initial) 0 0 ;;
  Ok (- p).

(** A row of [loan_schedule]. *)
Record Row : Type := {
  Month : Z;
  EMI : Q;
  Principal : Q;
  Interest : Q;
  Remaining_Principal : Q
}.

(** The body of the [for month in range(1, months + 1)] loop, run over the
    months still to come; [remaining_principal] is the loop's running
    variable. *)
Fixpoint loan_loop (rate : Q) (months initial : Z) (emi : Q)
    (remaining_principal : Q) (todo : list Z) : outcome (list Row) :=
  match todo with
  | [] => Ok []
  | month :: rest =>
      i <- numpy_financial.ipmt rate month months (inject_Z initial) 0 ;;
      let interest_payment := - i in
      p <- numpy_financial.ppmt rate month months (inject_Z initial) 0 ;;
      let principal_payment := - p in
      let remaining_principal := remaining_principal - principal_payment in
      rows <- loan_loop rate months initial emi remaining_principal rest ;;
      Ok ({| Month := month; EMI := emi; Principal := principal_payment;
             Interest := interest_payment;
             Remaining_Principal := remaining_principal |} :: rows)
  end.

Definition loan_schedule (loan_rate : Q) (months initial : Z) (emi : Q)
    : outcome (list Row) :=
  loan_loop (rate_per_period loan_rate) months initial emi (inject_Z initial)
    (py_range 1 (months + 1)).

(** [df[column].sum()]: a frame built from an empty list has no columns. *)
Definition column_sum (column : Row -> Q) (df : list Row) : outcome Q :=
  match df with
  | [] => Raise KeyError
  | _ => Ok (fold_left (fun acc row => acc + column row) df 0)
  end.

Definition total_loan_interest (loan_df : list Row) : outcome Q :=
  column_sum Interest loan_df.

(** *** Bond 2 (lines 67-80) *)

Record Bond2 : Type := {
  monthly_sip : Q;
  initial_bond2 : Q;
  bond2_lumpsum : Q;
  bond2_sip : Q;
  total_bond2_value : Q;
  bond2_gain : Q
}.

Definition monthly_bond2_return (bond2_rate : Q) : Q := bond2_rate / 12 / 100.

(** Line 74. *)
Definition lumpsum_value (initial_bond2 r : Q) (months : Z) : outcome Q :=
  g <- py_pow (1 + r) months ;;
  Ok (initial_bond2 * g).

(** Lines 77 and 141. *)
Definition sip_value (monthly_sip r : Q) (months : Z) : outcome Q :=
  g <- py_pow (1 + r) months ;;
  a <- py_truediv (g - 1) r ;;
  Ok (monthly_sip * a * (1 + r)).

Definition bond2 (initial : Z) (bond1_rate bond2_rate : Q) (months : Z) : outcome Bond2 :=
  let monthly_sip := monthly_bond1_interest initial bond1_rate in
  let initial_bond2 := inject_Z initial in
  let r := monthly_bond2_return bond2_rate in
  lumpsum <- lumpsum_value initial_bond2 r months ;;
  sip <- sip_value monthly_sip r months ;;
  let total := lumpsum + sip in
  Ok {| monthly_sip := monthly_sip; initial_bond2 := initial_bond2;
        bond2_lumpsum := lumpsum; bond2_sip := sip;
        total_bond2_value := total;
        bond2_gain := total - initial_bond2 - monthly_sip * inject_Z months |}.

(** *** Tax (lines 83-94) *)

Record Tax : Type := {
  bond1_tax : Q;
  bond2_tax_amount : Q;
  loan_interest_deduction : Q;
  total_tax : Q
}.

Definition tax (investor_type : string) (tax_rate bond2_tax : Q)
    (monthly_bond1_interest : Q) (months : Z)
    (bond2_gain total_loan_interest : Q) : Tax :=
  if contains "Individual" investor_type then
    let bond1_tax := monthly_bond1_interest * inject_Z months * (tax_rate / 100) in
    let bond2_tax_amount := bond2_gain * (bond2_tax / 100) in
    {| bond1_tax := bond1_tax; bond2_tax_amount := bond2_tax_amount;
       loan_interest_deduction := 0;
       total_tax := bond1_tax + bond2_tax_amount |}
  else
    let bond1_tax := monthly_bond1_interest * inject_Z months * (tax_rate / 100) in
    let bond2_tax_amount := bond2_gain * (tax_rate / 100) in
    let loan_interest_deduction := total_loan_interest * (tax_rate / 100) in
    {| bond1_tax := bond1_tax; bond2_tax_amount := bond2_tax_amount;
       loan_interest_deduction := loan_interest_deduction;
       total_tax := bond1_tax + bond2_tax_amount - loan_interest_deduction |}.

(** *** Final returns (lines 97-100) *)

Definition bond1_total_interest (monthly_bond1_interest : Q) (months : Z) : Q :=
  monthly_bond1_interest * inject_Z months.

Definition total_gain (bond1_total_interest bond2_gain : Q) : Q :=
  bond1_total_interest + bond2_gain.

Definition net_gain (total_gain total_loan_interest total_tax : Q) : Q :=
  total_gain - total_loan_interest - total_tax.

(** [net_gain] is a NumPy float64 (it has [total_loan_interest] in it), so
    the first division is NumPy's; [12 / months] divides two Python ints. *)
Definition annualized_return (net_gain : Q) (initial months : Z) : outcome Q :=
  a <- np_truediv net_gain (inject_Z initial) ;;
  b <- py_truediv 12 (inject_Z months) ;;
  Ok (a * b * 100).

(** *** Bond 2 growth projection (lines 134-142) *)

Fixpoint projection_loop (initial_bond2 monthly_sip r : Q) (months_list : list Z)
    : outcome (list Q) :=
  match months_list with
  | [] => Ok []
  | month :: rest =>
      lump_sum <- lumpsum_value initial_bond2 r month ;;
      sip <- sip_value monthly_sip r month ;;
      values <- projection_loop initial_bond2 monthly_sip r rest ;;
      Ok ((lump_sum + sip) :: values)
  end.

Definition bond2_values (initial : Z) (bond1_rate bond2_rate : Q) (months : Z)
    : outcome (list Q) :=
  projection_loop (inject_Z initial) (monthly_bond1_interest initial bond1_rate)
    (monthly_bond2_return bond2_rate) (py_range 1 (months + 1)).

(** *** The whole calculation *)

Record Results : Type := {
  r_monthly_bond1_interest : Q;
  r_emi : Q;
  r_loan_schedule : list Row;
  r_total_loan_interest : Q;
  r_bond2 : Bond2;
  r_tax : Tax;
  r_bond1_total_interest : Q;
  r_total_gain : Q;
  r_net_gain : Q;
  r_annualized_return : Q;
  r_bond2_values : list Q
}.

Definition calculate (i : Inputs) : outcome Results :=
  let mbi := monthly_bond1_interest (initial i) (bond1_rate i) in
  e <- emi (loan_rate i) (months i) (initial i) ;;
  loan_df <- loan_schedule (loan_rate i) (months i) (initial i) e ;;
  tli <- total_loan_interest loan_df ;;
  b2 <- bond2 (initial i) (bond1_rate i) (bond2_rate i) (months i) ;;
  let t := tax (investor_type i) (tax_rate i) (bond2_tax i) mbi (months i)
               (bond2_gain b2) tli in
  let b1 := bond1_total_interest mbi (months i) in
  let tg := total_gain b1 (bond2_gain b2) in
  let ng := net_gain tg tli (total_tax t) in
  ar <- annualized_return ng (initial i) (months i) ;;
  vs <- bond2_values (initial i) (bond1_rate i) (bond2_rate i) (months i) ;;
  Ok {| r_monthly_bond1_interest := mbi; r_emi := e; r_loan_schedule := loan_df;
        r_total_loan_interest := tli; r_bond2 := b2; r_tax := t;
        r_bond1_total_interest := b1; r_total_gain := tg; r_net_gain := ng;
        r_annualized_return := ar; r_bond2_values := vs |}.

End app.

Import app.

(** ** What is shown (lines 102-186) *)

Module rendering.

(** Line 134: the x axis of the chart. *)
Definition months_list (months : Z) : list Z := py_range 1 (months + 1).

(** Line 146: the "Loan Outstanding" series, [loan_df["Remaining Principal"]]. *)
Definition loan_outstanding (loan_df : list Row) : list Q :=
  map Remaining_Principal loan_df.

(** Lines 113 and 171: the rate written beside the Bond 2 tax. *)
Definition shown_bond2_tax_rate (investor_type : string) (tax_rate bond2_tax : Q) : Q :=
  if contains "Individual" investor_type then bond2_tax else tax_rate.

(** Lines 114 and 178: whether the loan interest deduction is shown at all. *)
Definition shows_loan_interest_deduction (investor_type : string) : bool :=
  contains "Private" investor_type.

End rendering.

Import rendering.

(** * Vocabulary of the proofs *)

(** The values the widgets start with. *)
Definition default_inputs : Inputs :=
  {| initial := 100000; bond1_rate := 14; bond2_rate := 10; loan_rate := 10;
     months := 12; investor_type := "Individual (30%)"; custom_rate := 25;
     bond2_tax := 15 |}.

(** The "Investor Capital" input set to another value. *)
Definition with_initial (i : Inputs) (p : Z) : Inputs :=
  {| initial := p; bond1_rate := bond1_rate i; bond2_rate := bond2_rate i;
     loan_rate := loan_rate i; months := months i;
     investor_type := investor_type i; custom_rate := custom_rate i;
     bond2_tax := bond2_tax i |}.

(** The "Bond 2 Tax Rate" slider set to another value. *)
Definition with_bond2_tax (i : Inputs) (b : Q) : Inputs :=
  {| initial := initial i; bond1_rate := bond1_rate i; bond2_rate := bond2_rate i;
     loan_rate := loan_rate i; months := months i;
     investor_type := investor_type i; custom_rate := custom_rate i;
     bond2_tax := b |}.

(** The value of the portfolio after [m] months, as lines 139-142 compute it
    at a monthly rate [r]. *)
Definition portfolio_value (r initial_bond2 monthly_sip : Q) (m : Z) : Q :=
  initial_bond2 * (1 + r) ^ m + monthly_sip * (((1 + r) ^ m - 1) / r) * (1 + r).

(** The rows the loop appends when payment [m] has interest part [ip m] and
    principal part [pp m] (both negative, as numpy_financial returns them). *)
Fixpoint schedule_rows (ip pp : Z -> Q) (emi remaining_principal : Q)
    (todo : list Z) : list Row :=
  match todo with
  | [] => []
  | month :: rest =>
      let remaining_principal := remaining_principal - - pp month in
      {| Month := month; EMI := emi; Principal := - pp month;
         Interest := - ip month; Remaining_Principal := remaining_principal |}
      :: schedule_rows ip pp emi remaining_principal rest
  end.

(** Consecutive months [a, a+1, ..., a+k-1]. *)
Definition consecutive (a : Z) (k : nat) : list Z :=
  map (fun i => (a + Z.of_nat i)%Z) (seq 0 k).

(** [B k] being the balance after payment [k], payment [m] repays
    [B (m-1) - B m] of it, for the [k] months from [a] on. *)
Definition repays (pp B : Z -> Q) (a : Z) (k : nat) : Prop :=
  forall m, (a <= m < a + Z.of_nat k)%Z -> - pp m == B (m - 1)%Z - B m.

(** What numpy_financial returns at a positive rate, in closed form. *)
Definition pmt_value (rate : Q) (nper : Z) (pv : Q) : Q :=
  - (0 + pv * (1 + rate) ^ nper) / ((1 + rate * 0) * ((1 + rate) ^ nper - 1) / rate).

Definition fv_value (rate : Q) (nper : Z) (pmt pv : Q) : Q :=
  - pv * (1 + rate) ^ nper - pmt * (1 + rate * 0) / rate * ((1 + rate) ^ nper - 1).

Definition ipmt_value (rate : Q) (per nper : Z) (pv : Q) : Q :=
  fv_value rate (per - 1) (pmt_value rate nper pv) pv * rate.

Definition ppmt_value (rate : Q) (per nper : Z) (pv : Q) : Q :=
  pmt_value rate nper pv - ipmt_value rate per nper pv.

(** The balance of the loan after [k] payments. *)
Definition balance (rate : Q) (nper : Z) (pv : Q) (k : Z) : Q :=
  - fv_value rate k (pmt_value rate nper pv) pv.

(** What numpy_financial returns at a zero rate. *)
Definition pmt_zero_value (rate : Q) (nper : Z) (pv : Q) : Q :=
  - (0 + pv * (1 + rate) ^ nper) / inject_Z nper.

Definition ipmt_zero_value (rate : Q) (nper : Z) (pv : Q) (m : Z) : Q :=
  - (pv + pmt_zero_value rate nper pv * inject_Z (m - 1)) * rate.

(** * Properties *)

(** ** The primitives on inputs where nothing goes wrong *)

Lemma Qeq_bool_false (a b : Q) : ~ a == b -> Qeq_bool a b = false.
Proof.
  intro H. destruct (Qeq_bool a b) eqn:E; [ | reflexivity ].
  apply Qeq_bool_iff in E. contradiction.
Qed.

Lemma py_truediv_ok (a b : Q) : ~ b == 0 -> py_truediv a b = Ok (a / b).
Proof. intro H. unfold py_truediv. now rewrite (Qeq_bool_false _ _ H). Qed.

Lemma py_truediv_zero (a b : Q) : b == 0 -> py_truediv a b = Raise ZeroDivisionError.
Proof. intro H. unfold py_truediv. now rewrite (Qeq_eq_bool _ _ H). Qed.

Lemma np_truediv_ok (a b : Q) : ~ b == 0 -> np_truediv a b = Ok (a / b).
Proof. intro H. unfold np_truediv. now rewrite (Qeq_bool_false _ _ H). Qed.

Lemma py_pow_ok (a : Q) (n : Z) : ~ a == 0 -> py_pow a n = Ok (a ^ n).
Proof. intro H. unfold py_pow. now rewrite (Qeq_bool_false _ _ H). Qed.

Lemma np_power_ok (a : Q) (n : Z) : ~ a == 0 -> np_power a n = Ok (a ^ n).
Proof. intro H. unfold np_power. now rewrite (Qeq_bool_false _ _ H). Qed.

Lemma inject_Z_nonzero (z : Z) : z <> 0%Z -> ~ inject_Z z == 0.
Proof.
  intros H E. apply H. unfold Qeq in E. simpl in E. lia.
Qed.

(** ** Tax *)

(** C5.  For an Individual investor (the type's label has "Individual" in
    it) the tax block gives bond1_tax = bond1_total_interest x tax_rate/100,
    bond2_tax_amount = bond2_gain x bond2_tax/100, no loan-interest deduction
    and total_tax = bond1_tax + bond2_tax_amount; a zero bond2 gain is taxed
    zero. *)
Theorem individual_tax (investor_type : string) (tax_rate bond2_tax mbi : Q)
    (months : Z) (bond2_gain tli : Q) :
  contains "Individual" investor_type = true ->
  let t := tax investor_type tax_rate bond2_tax mbi months bond2_gain tli in
  bond1_tax t == bond1_total_interest mbi months * tax_rate / 100 /\
  bond2_tax_amount t == bond2_gain * bond2_tax / 100 /\
  loan_interest_deduction t = 0 /\
  total_tax t == bond1_tax t + bond2_tax_amount t /\
  (bond2_gain == 0 -> bond2_tax_amount t == 0).
Proof.
  intros H. unfold tax. rewrite H. cbn [bond1_tax bond2_tax_amount
    loan_interest_deduction total_tax]. unfold bond1_total_interest.
  repeat split; try reflexivity.
  - field.
  - field.
  - intro E. rewrite E. ring.
Qed.

Lemma individual_tax_witness :
  let t := tax "Individual (30%)" 30 15 1000 12 0 5000 in
  bond1_tax t == bond1_total_interest 1000 12 * 30 / 100 /\
  bond2_tax_amount t == 0 * 15 / 100 /\
  loan_interest_deduction t = 0 /\
  total_tax t == bond1_tax t + bond2_tax_amount t /\
  (0 == 0 -> bond2_tax_amount t == 0).
Proof. apply (individual_tax "Individual (30%)" 30 15 1000 12 0 5000). reflexivity. Defined.

(** C6.  For any other investor (the Company branch) the investor's own rate
    is applied to the bond2 gain, whatever the bond2 tax rate input is; the
    deduction is total_loan_interest x tax_rate/100 and total_tax = bond1_tax
    + bond2_tax_amount - loan_interest_deduction, unclamped: it is negative
    as soon as the deduction exceeds the two taxes. *)
Theorem company_tax (investor_type : string) (tax_rate bond2_tax mbi : Q)
    (months : Z) (bond2_gain tli : Q) :
  contains "Individual" investor_type = false ->
  let t := tax investor_type tax_rate bond2_tax mbi months bond2_gain tli in
  bond1_tax t == bond1_total_interest mbi months * tax_rate / 100 /\
  bond2_tax_amount t == bond2_gain * tax_rate / 100 /\
  (forall other_bond2_tax,
     tax investor_type tax_rate other_bond2_tax mbi months bond2_gain tli = t) /\
  loan_interest_deduction t == tli * tax_rate / 100 /\
  total_tax t = bond1_tax t + bond2_tax_amount t - loan_interest_deduction t /\
  (bond1_tax t + bond2_tax_amount t < loan_interest_deduction t -> total_tax t < 0).
Proof.
  intros H. unfold tax. rewrite H. cbn [bond1_tax bond2_tax_amount
    loan_interest_deduction total_tax]. unfold bond1_total_interest.
  repeat split; try reflexivity.
  - field.
  - field.
  - field.
  - generalize (mbi * inject_Z months * (tax_rate / 100)),
      (bond2_gain * (tax_rate / 100)), (tli * (tax_rate / 100)).
    intros a b c L. lra.
Qed.

Lemma company_tax_witness :
  let t := tax "Private Ltd (25%)" 25 15 1000 12 5000 50000 in
  total_tax t = bond1_tax t + bond2_tax_amount t - loan_interest_deduction t /\
  total_tax t < 0.
Proof.
  destruct (company_tax "Private Ltd (25%)" 25 15 1000 12 5000 50000 eq_refl)
    as (_ & _ & _ & _ & E & N).
  split; [ exact E | apply N; reflexivity ].
Defined.

(** C10.  With the investor type "Custom Rate" the tax rate is the custom
    slider's value and the tax block takes the Company branch: that rate is
    applied to the bond2 gain, the loan-interest deduction is granted, and
    the bond2 tax rate input has no influence on the run at all. *)
Theorem custom_rate_company_branch (i : Inputs) (mbi bond2_gain tli : Q) :
  investor_type i = "Custom Rate"%string ->
  tax_rate i = custom_rate i /\
  (let t := tax (investor_type i) (tax_rate i) (bond2_tax i) mbi (months i)
                bond2_gain tli in
   bond2_tax_amount t == bond2_gain * custom_rate i / 100 /\
   loan_interest_deduction t == tli * custom_rate i / 100 /\
   total_tax t = bond1_tax t + bond2_tax_amount t - loan_interest_deduction t) /\
  (forall b, calculate (with_bond2_tax i b) = calculate i).
Proof.
  intros H. destruct i as [ini b1 b2 lr ms it cr bt]. cbn in H. subst it.
  split; [ reflexivity | split ].
  - cbn. repeat split; try reflexivity; field.
  - intro b. reflexivity.
Qed.

Lemma custom_rate_company_branch_witness :
  let i := {| initial := 100000; bond1_rate := 14; bond2_rate := 10;
              loan_rate := 10; months := 12; investor_type := "Custom Rate";
              custom_rate := 20; bond2_tax := 15 |} in
  tax_rate i = 20 /\
  forall b, calculate (with_bond2_tax i b) = calculate i.
Proof.
  intro i.
  destruct (custom_rate_company_branch i 0 0 0 eq_refl) as (R & _ & I).
  split; [ exact R | exact I ].
Defined.

(** ** Final returns *)

(** The spec's example: 100000 at 12% a year pays 1000 a month, 12000 over
    12 months. *)
Example bond1_interest_example :
  monthly_bond1_interest 100000 12 == 1000 /\
  bond1_total_interest (monthly_bond1_interest 100000 12) 12 == 12000.
Proof. split; reflexivity. Qed.

Lemma bind_Ok_inv {A B : Type} (c : outcome A) (k : A -> outcome B) (b : B) :
  bind c k = Ok b -> exists a, c = Ok a /\ k a = Ok b.
Proof. destruct c; cbn; intro H; try discriminate. now exists a. Qed.

Ltac bind_inv H :=
  let a := fresh "v" in
  let E := fresh "E" in
  apply bind_Ok_inv in H; destruct H as (a & E & H).

(** What a run that returns has computed, block by block. *)
Lemma calculate_inv (i : Inputs) (res : Results) :
  calculate i = Ok res ->
  let mbi := monthly_bond1_interest (initial i) (bond1_rate i) in
  emi (loan_rate i) (months i) (initial i) = Ok (r_emi res) /\
  loan_schedule (loan_rate i) (months i) (initial i) (r_emi res)
    = Ok (r_loan_schedule res) /\
  total_loan_interest (r_loan_schedule res) = Ok (r_total_loan_interest res) /\
  bond2 (initial i) (bond1_rate i) (bond2_rate i) (months i) = Ok (r_bond2 res) /\
  r_tax res = tax (investor_type i) (tax_rate i) (bond2_tax i) mbi (months i)
                  (bond2_gain (r_bond2 res)) (r_total_loan_interest res) /\
  r_monthly_bond1_interest res = mbi /\
  r_bond1_total_interest res = bond1_total_interest mbi (months i) /\
  r_total_gain res
    = total_gain (r_bond1_total_interest res) (bond2_gain (r_bond2 res)) /\
  r_net_gain res
    = net_gain (r_total_gain res) (r_total_loan_interest res) (total_tax (r_tax res)) /\
  annualized_return (r_net_gain res) (initial i) (months i)
    = Ok (r_annualized_return res) /\
  bond2_values (initial i) (bond1_rate i) (bond2_rate i) (months i)
    = Ok (r_bond2_values res).
Proof.
  unfold calculate. intro H.
  do 6 bind_inv H. injection H as <-. cbn [r_emi r_loan_schedule
    r_total_loan_interest r_bond2 r_tax r_monthly_bond1_interest
    r_bond1_total_interest r_total_gain r_net_gain r_annualized_return
    r_bond2_values].
  repeat split; assumption.
Qed.

Lemma annualized_return_inv (ng : Q) (p m : Z) (a : Q) :
  annualized_return ng p m = Ok a ->
  ~ inject_Z p == 0 /\ ~ inject_Z m == 0 /\
  a = ng / inject_Z p * (12 / inject_Z m) * 100.
Proof.
  unfold annualized_return, np_truediv, py_truediv.
  destruct (Qeq_bool (inject_Z p) 0) eqn:Ep; [ discriminate | ].
  destruct (Qeq_bool (inject_Z m) 0) eqn:Em; [ discriminate | ].
  cbn. intro H. injection H as <-.
  split; [ now apply Qeq_bool_neq | split; [ now apply Qeq_bool_neq | reflexivity ] ].
Qed.

(** C7.  A run that returns has net_gain = total_gain - total_loan_interest
    - total_tax and annualized_return = (net_gain / initial) x (12 / months)
    x 100; with the same net gain and principal and twice the tenure the
    annualized figure is half as large. *)
Theorem net_gain_annualized (i : Inputs) (res : Results) :
  calculate i = Ok res ->
  r_net_gain res
    = r_total_gain res - r_total_loan_interest res - total_tax (r_tax res) /\
  r_annualized_return res
    = r_net_gain res / inject_Z (initial i) * (12 / inject_Z (months i)) * 100 /\
  exists doubled,
    annualized_return (r_net_gain res) (initial i) (2 * months i) = Ok doubled /\
    doubled == r_annualized_return res / 2.
Proof.
  intro H. destruct (calculate_inv i res H)
    as (_ & _ & _ & _ & _ & _ & _ & _ & Hn & Ha & _).
  apply annualized_return_inv in Ha. destruct Ha as (Hp & Hm & Ha).
  split; [ exact Hn | split; [ exact Ha | ] ].
  assert (Hm2 : ~ inject_Z (2 * months i) == 0).
  { rewrite inject_Z_mult. intro E. apply Hm.
    apply Qmult_integral in E. destruct E as [E | E]; [ discriminate E | exact E ]. }
  unfold annualized_return.
  rewrite (np_truediv_ok _ _ Hp), (py_truediv_ok _ _ Hm2). cbn [bind].
  eexists. split; [ reflexivity | ].
  rewrite Ha, inject_Z_mult. field. split; assumption.
Qed.

(** ** Bond 2 *)

Lemma Qmult_le_compat_l_nonneg (x y z : Q) : 0 <= z -> x <= y -> z * x <= z * y.
Proof.
  intros Hz Hxy. rewrite (Qmult_comm z x), (Qmult_comm z y).
  now apply Qmult_le_compat_r.
Qed.

Section Bond2Growth.

Variables (bond2_rate : Q).
Let r := monthly_bond2_return bond2_rate.

Lemma monthly_return_pos : 0 < bond2_rate -> 0 < r.
Proof.
  intro H. unfold r, monthly_bond2_return.
  apply Qlt_shift_div_l; [ reflexivity | ].
  apply Qlt_shift_div_l; [ reflexivity | ]. lra.
Qed.

Lemma monthly_return_zero : bond2_rate == 0 -> r == 0.
Proof. intro H. unfold r, monthly_bond2_return. rewrite H. reflexivity. Qed.

Lemma lumpsum_value_ok (initial_bond2 : Q) (m : Z) :
  0 < r -> lumpsum_value initial_bond2 r m = Ok (initial_bond2 * (1 + r) ^ m).
Proof.
  intro H. unfold lumpsum_value. rewrite py_pow_ok by lra. reflexivity.
Qed.

Lemma sip_value_ok (monthly_sip : Q) (m : Z) :
  0 < r ->
  sip_value monthly_sip r m = Ok (monthly_sip * (((1 + r) ^ m - 1) / r) * (1 + r)).
Proof.
  intro H. unfold sip_value. rewrite py_pow_ok by lra. cbn [bind].
  rewrite py_truediv_ok by lra. reflexivity.
Qed.

Lemma sip_value_zero_rate (monthly_sip : Q) (m : Z) :
  r == 0 -> sip_value monthly_sip r m = Raise ZeroDivisionError.
Proof.
  intro H. unfold sip_value. rewrite py_pow_ok by lra. cbn [bind].
  rewrite py_truediv_zero by exact H. reflexivity.
Qed.

Lemma projection_loop_ok (initial_bond2 monthly_sip : Q) (months_list : list Z) :
  0 < r ->
  projection_loop initial_bond2 monthly_sip r months_list
    = Ok (map (portfolio_value r initial_bond2 monthly_sip) months_list).
Proof.
  intro H. induction months_list as [ | m rest IH ]; [ reflexivity | ].
  cbn [projection_loop map].
  rewrite lumpsum_value_ok, sip_value_ok, IH by exact H. reflexivity.
Qed.

Lemma projection_loop_zero_rate (initial_bond2 monthly_sip : Q) (months_list : list Z) :
  r == 0 ->
  forall vs, projection_loop initial_bond2 monthly_sip r months_list = Ok vs -> vs = [].
Proof.
  intros H vs. destruct months_list as [ | m rest ]; cbn [projection_loop].
  - intro E. now injection E as <-.
  - unfold lumpsum_value. rewrite py_pow_ok by lra. cbn [bind].
    rewrite sip_value_zero_rate by exact H. discriminate.
Qed.

Lemma portfolio_value_mono (initial_bond2 monthly_sip : Q) (j k : Z) :
  0 <= initial_bond2 -> 0 <= monthly_sip -> 0 < r -> (j <= k)%Z ->
  portfolio_value r initial_bond2 monthly_sip j
    <= portfolio_value r initial_bond2 monthly_sip k.
Proof.
  intros HP Hc Hr Hjk. unfold portfolio_value.
  assert (Hpow : (1 + r) ^ j <= (1 + r) ^ k)
    by (apply Qpower_le_compat_l; [ exact Hjk | lra ]).
  apply Qplus_le_compat.
  - apply Qmult_le_compat_l_nonneg; assumption.
  - apply Qmult_le_compat_r; [ | lra ].
    apply Qmult_le_compat_l_nonneg; [ exact Hc | ].
    apply Qmult_le_compat_r; [ lra | ].
    apply Qlt_le_weak, Qinv_lt_0_compat, Hr.
Qed.

End Bond2Growth.

Lemma py_range_length (a b : Z) : List.length (py_range a b) = Z.to_nat (b - a).
Proof. unfold py_range. now rewrite length_map, length_seq. Qed.

Lemma py_range_nth (a b : Z) (j : nat) (d : Z) :
  (j < Z.to_nat (b - a))%nat -> nth j (py_range a b) d = (a + Z.of_nat j)%Z.
Proof.
  intro H. unfold py_range.
  rewrite (nth_indep _ d (a + Z.of_nat 0)%Z) by now rewrite length_map, length_seq.
  rewrite (map_nth (fun i => (a + Z.of_nat i)%Z)), seq_nth by exact H.
  reflexivity.
Qed.

Lemma py_range_In (a b m : Z) : In m (py_range a b) -> (a <= m < b)%Z.
Proof.
  unfold py_range. rewrite in_map_iff. intros (i & <- & Hi).
  apply in_seq in Hi. lia.
Qed.

(** C3 (as the code has it).  For every rate the "Bond 2 Expected Return"
    slider can give (1.0 to 30.0) the SIP future value is the closed form
    monthly_sip x (((1+r)^months - 1)/r) x (1+r), computed without error.
    There is no branch for r = 0. *)
Theorem sip_closed_form (monthly_sip bond2_rate : Q) (months : Z) :
  1 <= bond2_rate <= 30 ->
  let r := monthly_bond2_return bond2_rate in
  sip_value monthly_sip r months
    = Ok (monthly_sip * (((1 + r) ^ months - 1) / r) * (1 + r)).
Proof.
  intros [H _] r. apply sip_value_ok. apply monthly_return_pos. lra.
Qed.

Lemma sip_closed_form_witness :
  sip_value 1000 (monthly_bond2_return 12) 2
    = Ok (1000 * (((1 + monthly_bond2_return 12) ^ 2 - 1) / monthly_bond2_return 12)
            * (1 + monthly_bond2_return 12)).
Proof. apply (sip_closed_form 1000 12 2). split; discriminate. Defined.

(** At a zero Bond 2 rate the SIP computation does not give monthly_sip x
    months: the division by r raises, and the run as a whole ends in that
    ZeroDivisionError. *)
Lemma sip_zero_rate_raises :
  sip_value 1000 (monthly_bond2_return 0) 12 = Raise ZeroDivisionError /\
  ~ (exists v, sip_value 1000 (monthly_bond2_return 0) 12 = Ok v /\ v == 1000 * 12) /\
  calculate {| initial := 100000; bond1_rate := 12; bond2_rate := 0;
               loan_rate := 10; months := 12;
               investor_type := "Individual (30%)"; custom_rate := 25;
               bond2_tax := 15 |} = Raise ZeroDivisionError.
Proof.
  split; [ reflexivity | split ].
  - intros (v & E & _). discriminate E.
  - vm_compute. reflexivity.
Qed.

(** C8.  The SIP contribution into Bond 2 is the monthly Bond 1 interest
    initial x bond1_rate/12/100, Bond 2's lump sum starts from the same
    principal, total_bond2_value = principal x (1+r)^months + contribution x
    (((1+r)^months - 1)/r) x (1+r) and bond2_gain = total_bond2_value -
    principal - contribution x months. *)
Theorem bond2_gain_formula (initial : Z) (bond1_rate bond2_rate : Q) (months : Z) :
  0 < bond2_rate ->
  let r := bond2_rate / 12 / 100 in
  let principal := inject_Z initial in
  let contribution := principal * (bond1_rate / 12 / 100) in
  exists b, bond2 initial bond1_rate bond2_rate months = Ok b /\
    monthly_sip b = contribution /\
    initial_bond2 b = principal /\
    total_bond2_value b
      = principal * (1 + r) ^ months
        + contribution * (((1 + r) ^ months - 1) / r) * (1 + r) /\
    bond2_gain b
      = total_bond2_value b - principal - contribution * inject_Z months.
Proof.
  intros H r principal contribution.
  pose proof (monthly_return_pos bond2_rate H) as Hr.
  unfold bond2. rewrite lumpsum_value_ok, sip_value_ok by exact Hr.
  cbn [bind]. eexists. split; [ reflexivity | ].
  cbn [monthly_sip initial_bond2 total_bond2_value bond2_gain].
  repeat split; reflexivity.
Qed.

Lemma bond2_gain_formula_witness :
  exists b, bond2 100000 12 10 12 = Ok b /\
    monthly_sip b == 1000 /\ initial_bond2 b = 100000 /\
    bond2_gain b == total_bond2_value b - 100000 - 12000.
Proof.
  destruct (bond2_gain_formula 100000 12 10 12 eq_refl) as (b & E & S & I & _ & G).
  exists b. split; [ exact E | ].
  split; [ rewrite S; reflexivity | ].
  split; [ exact I | rewrite G; unfold Qminus; apply Qplus_comp; reflexivity ].
Defined.

(** C9.  With a non-negative principal, Bond 1 rate and Bond 2 rate, the
    values of the growth projection never decrease from one month to a later
    one; for a positive Bond 2 rate the projection exists, has one value per
    month 1..months, and the value for month m is the lump-sum and SIP
    formulas at m. *)
Theorem growth_projection_monotone (initial : Z) (bond1_rate bond2_rate : Q)
    (months : Z) :
  (0 <= initial)%Z -> 0 <= bond1_rate -> 0 <= bond2_rate ->
  (forall vs, bond2_values initial bond1_rate bond2_rate months = Ok vs ->
     forall j k, (j <= k < List.length vs)%nat -> nth j vs 0 <= nth k vs 0) /\
  (0 < bond2_rate ->
     exists vs, bond2_values initial bond1_rate bond2_rate months = Ok vs /\
       List.length vs = Z.to_nat months /\
       forall j, (j < List.length vs)%nat ->
         nth j vs 0 = portfolio_value (monthly_bond2_return bond2_rate)
                        (inject_Z initial)
                        (monthly_bond1_interest initial bond1_rate)
                        (1 + Z.of_nat j)).
Proof.
  intros Hi Hb1 Hb2.
  set (P := inject_Z initial).
  set (c := monthly_bond1_interest initial bond1_rate).
  set (f := portfolio_value (monthly_bond2_return bond2_rate) P c).
  assert (HP : 0 <= P)
    by (change (inject_Z 0 <= inject_Z initial); rewrite <- Zle_Qle; exact Hi).
  assert (Hc : 0 <= c).
  { unfold c, monthly_bond1_interest. apply Qmult_le_0_compat; [ exact HP | ].
    apply Qle_shift_div_l; [ reflexivity | ].
    apply Qle_shift_div_l; [ reflexivity | ]. lra. }
  assert (Hlen : List.length (py_range 1 (months + 1)) = Z.to_nat months)
    by (rewrite py_range_length; f_equal; lia).
  assert (Hnth : forall j, (j < Z.to_nat months)%nat ->
            nth j (map f (py_range 1 (months + 1))) 0 = f (1 + Z.of_nat j)%Z).
  { intros j Hj.
    rewrite (nth_indep _ 0 (f 0%Z)) by (rewrite length_map, Hlen; exact Hj).
    rewrite map_nth, py_range_nth; [ reflexivity | ].
    replace (months + 1 - 1)%Z with months by lia. exact Hj. }
  assert (Hpos : 0 < bond2_rate ->
            bond2_values initial bond1_rate bond2_rate months
              = Ok (map f (py_range 1 (months + 1)))).
  { intro H. unfold bond2_values. apply projection_loop_ok.
    apply monthly_return_pos, H. }
  split.
  - intros vs E j k Hjk.
    destruct (Qlt_le_dec 0 bond2_rate) as [Hlt | Hle].
    + rewrite (Hpos Hlt) in E. injection E as <-.
      rewrite length_map, Hlen in Hjk.
      rewrite !Hnth by lia.
      apply portfolio_value_mono; try assumption; [ | lia ].
      apply monthly_return_pos, Hlt.
    + assert (Hz : bond2_rate == 0) by lra.
      apply projection_loop_zero_rate in E; [ | apply monthly_return_zero, Hz ].
      subst vs. cbn in Hjk. lia.
  - intro Hlt. eexists. split; [ exact (Hpos Hlt) | ].
    rewrite length_map, Hlen. split; [ reflexivity | ].
    intros j Hj. now apply Hnth.
Qed.

(** ** Loan *)

Lemma loan_loop_rows (rate : Q) (months initial : Z) (ip pp : Z -> Q)
    (emi : Q) (todo : list Z) :
  (forall m, In m todo ->
     numpy_financial.ipmt rate m months (inject_Z initial) 0 = Ok (ip m) /\
     numpy_financial.ppmt rate m months (inject_Z initial) 0 = Ok (pp m)) ->
  forall rem,
    loan_loop rate months initial emi rem todo
      = Ok (schedule_rows ip pp emi rem todo).
Proof.
  induction todo as [ | m rest IH ]; intros H rem; [ reflexivity | ].
  cbn [loan_loop schedule_rows].
  destruct (H m (or_introl eq_refl)) as [Hi Hp]. rewrite Hi, Hp. cbn [bind].
  rewrite IH by (intros m' Hm'; apply H; now right). reflexivity.
Qed.

Lemma schedule_rows_length (ip pp : Z -> Q) (emi rem : Q) (todo : list Z) :
  List.length (schedule_rows ip pp emi rem todo) = List.length todo.
Proof.
  revert rem. induction todo as [ | m rest IH ]; intro rem; [ reflexivity | ].
  cbn [schedule_rows List.length]. now rewrite IH.
Qed.

Lemma consecutive_S (a : Z) (k : nat) :
  consecutive a (S k) = a :: consecutive (a + 1) k.
Proof.
  unfold consecutive. cbn [seq map]. f_equal; [ lia | ].
  rewrite <- seq_shift, map_map. apply map_ext. intro i. lia.
Qed.

Lemma py_range_consecutive (a b : Z) : py_range a b = consecutive a (Z.to_nat (b - a)).
Proof. reflexivity. Qed.

Section Telescope.

Variables (ip pp B : Z -> Q) (emi : Q).

Lemma repays_S (a : Z) (k : nat) :
  repays pp B a (S k) -> - pp a == B (a - 1) - B a /\ repays pp B (a + 1) k.
Proof.
  intro H. split; [ apply H; lia | ]. intros m Hm. apply H. lia.
Qed.

Lemma schedule_rows_balance (k : nat) : forall (a : Z) (rem : Q),
  repays pp B a k -> rem == B (a - 1) ->
  Forall (fun row => Remaining_Principal row == B (Month row) /\
                     (a <= Month row < a + Z.of_nat k)%Z)
         (schedule_rows ip pp emi rem (consecutive a k)).
Proof.
  induction k as [ | k IH ]; intros a rem Hr Hrem; [ constructor | ].
  rewrite consecutive_S. cbn [schedule_rows].
  apply repays_S in Hr. destruct Hr as [Ha Hr].
  assert (Hnext : rem - - pp a == B (a + 1 - 1)).
  { replace (a + 1 - 1)%Z with a by lia. rewrite Ha, Hrem. ring. }
  constructor.
  - cbn [Remaining_Principal Month]. split; [ | lia ].
    rewrite Hnext. now replace (a + 1 - 1)%Z with a by lia.
  - eapply Forall_impl; [ | apply (IH (a + 1)%Z _ Hr Hnext) ].
    cbn beta. intros row [H1 H2]. split; [ exact H1 | lia ].
Qed.

Lemma schedule_rows_principal_sum (k : nat) : forall (a : Z) (rem acc : Q),
  repays pp B a k ->
  fold_left (fun acc row => acc + Principal row)
            (schedule_rows ip pp emi rem (consecutive a k)) acc
    == acc + (B (a - 1) - B (a - 1 + Z.of_nat k)).
Proof.
  induction k as [ | k IH ]; intros a rem acc Hr.
  - cbn. replace (a - 1 + 0)%Z with (a - 1)%Z by lia. ring.
  - rewrite consecutive_S. cbn [schedule_rows fold_left Principal].
    apply repays_S in Hr. destruct Hr as [Ha Hr].
    rewrite (IH (a + 1)%Z _ _ Hr), Ha.
    replace (a + 1 - 1 + Z.of_nat k)%Z with (a - 1 + Z.of_nat (S k))%Z by lia.
    replace (a + 1 - 1)%Z with a by lia. ring.
Qed.

Lemma schedule_rows_interest_zero (todo : list Z) : forall (rem acc : Q),
  (forall m, In m todo -> ip m == 0) ->
  fold_left (fun acc row => acc + Interest row)
            (schedule_rows ip pp emi rem todo) acc == acc.
Proof.
  induction todo as [ | m rest IH ]; intros rem acc H; [ reflexivity | ].
  cbn [schedule_rows fold_left Interest].
  rewrite IH by (intros m' Hm'; apply H; now right).
  rewrite (H m (or_introl eq_refl)). ring.
Qed.

End Telescope.

Lemma schedule_rows_months (ip pp : Z -> Q) (emi rem : Q) (todo : list Z) :
  map Month (schedule_rows ip pp emi rem todo) = todo.
Proof.
  revert rem. induction todo as [ | m rest IH ]; intro rem; [ reflexivity | ].
  cbn [schedule_rows map Month]. now rewrite IH.
Qed.

Section PositiveRate.

Variables (rate : Q) (nper : Z) (pv : Q).
Hypothesis rate_pos : 0 < rate.
Hypothesis nper_pos : (1 <= nper)%Z.

Lemma growth_gt_1 : 1 < (1 + rate) ^ nper.
Proof. apply Qpower_1_lt; [ lra | lia ]. Qed.

Lemma fact_pos : 0 < (1 + rate * 0) * ((1 + rate) ^ nper - 1) / rate.
Proof.
  pose proof growth_gt_1 as G.
  apply Qlt_shift_div_l; [ exact rate_pos | ].
  setoid_replace (0 * rate) with 0 by ring.
  setoid_replace ((1 + rate * 0) * ((1 + rate) ^ nper - 1))
    with ((1 + rate) ^ nper - 1) by ring.
  lra.
Qed.

Lemma pmt_ok : numpy_financial.pmt rate nper pv 0 0 = Ok (pmt_value rate nper pv).
Proof.
  pose proof fact_pos as F.
  unfold numpy_financial.pmt. rewrite np_power_ok by lra. cbn [bind].
  rewrite Qeq_bool_false by lra. cbn zeta.
  rewrite np_truediv_ok by lra. reflexivity.
Qed.

Lemma fv_ok (k : Z) (p : Q) :
  numpy_financial.fv rate k p pv 0 = Ok (fv_value rate k p pv).
Proof.
  unfold numpy_financial.fv. rewrite Qeq_bool_false by lra.
  rewrite np_power_ok by lra. reflexivity.
Qed.

Lemma ipmt_ok (m : Z) :
  (1 <= m)%Z ->
  numpy_financial.ipmt rate m nper pv 0 = Ok (ipmt_value rate m nper pv).
Proof.
  intro Hm. unfold numpy_financial.ipmt, numpy_financial._rbl.
  rewrite pmt_ok. cbn [bind]. rewrite fv_ok. cbn [bind].
  destruct (Z.ltb_spec m 1); [ lia | reflexivity ].
Qed.

Lemma ppmt_ok (m : Z) :
  (1 <= m)%Z ->
  numpy_financial.ppmt rate m nper pv 0 = Ok (ppmt_value rate m nper pv).
Proof.
  intro Hm. unfold numpy_financial.ppmt.
  rewrite pmt_ok. cbn [bind]. rewrite ipmt_ok by exact Hm. reflexivity.
Qed.

(** The EMI in the spec's form. *)
Lemma pmt_value_formula :
  - pmt_value rate nper pv
    == pv * rate * (1 + rate) ^ nper / ((1 + rate) ^ nper - 1).
Proof.
  pose proof growth_gt_1 as G. unfold pmt_value.
  generalize dependent ((1 + rate) ^ nper). intros T G.
  field. split; lra.
Qed.

(** Payment [m] lowers the balance from [balance (m-1)] to [balance m]. *)
Lemma ppmt_value_repays (m : Z) :
  - ppmt_value rate m nper pv
    == balance rate nper pv (m - 1) - balance rate nper pv m.
Proof.
  unfold ppmt_value, ipmt_value, balance, fv_value.
  assert (E : (1 + rate) ^ m == (1 + rate) ^ (m - 1) * (1 + rate)).
  { replace m with (m - 1 + 1)%Z at 1 by lia.
    rewrite Qpower_plus by lra. reflexivity. }
  rewrite E.
  generalize (pmt_value rate nper pv), ((1 + rate) ^ (m - 1)). intros p X.
  field. lra.
Qed.

(** The interest part of payment [m] is the rate times the balance before it. *)
Lemma ipmt_value_interest (m : Z) :
  - ipmt_value rate m nper pv == balance rate nper pv (m - 1) * rate.
Proof. unfold ipmt_value, balance. ring. Qed.

Lemma balance_start : balance rate nper pv 0 == pv.
Proof.
  unfold balance, fv_value. change ((1 + rate) ^ 0) with 1.
  field. lra.
Qed.

Lemma balance_end : balance rate nper pv nper == 0.
Proof.
  pose proof growth_gt_1 as G. unfold balance, fv_value, pmt_value.
  generalize dependent ((1 + rate) ^ nper). intros T G.
  field. split; lra.
Qed.

End PositiveRate.

Section ZeroRate.

Variables (rate : Q) (nper : Z) (pv : Q).
Hypothesis rate_zero : rate == 0.
Hypothesis nper_pos : (1 <= nper)%Z.

Lemma pmt_zero_ok :
  numpy_financial.pmt rate nper pv 0 0 = Ok (pmt_zero_value rate nper pv).
Proof.
  unfold numpy_financial.pmt. rewrite np_power_ok by lra. cbn [bind].
  rewrite (Qeq_eq_bool _ _ rate_zero). cbv zeta iota.
  rewrite np_truediv_ok by (apply inject_Z_nonzero; lia). reflexivity.
Qed.

Lemma pmt_zero_value_formula : - pmt_zero_value rate nper pv == pv / inject_Z nper.
Proof.
  unfold pmt_zero_value. rewrite rate_zero.
  setoid_replace (1 + 0) with 1 by ring. rewrite Qpower_1.
  field. apply inject_Z_nonzero. lia.
Qed.

Lemma ipmt_zero_ok (m : Z) :
  (1 <= m)%Z ->
  numpy_financial.ipmt rate m nper pv 0 = Ok (ipmt_zero_value rate nper pv m).
Proof.
  intro Hm. unfold numpy_financial.ipmt, numpy_financial._rbl, numpy_financial.fv.
  rewrite pmt_zero_ok. cbn [bind]. rewrite (Qeq_eq_bool _ _ rate_zero). cbn [bind].
  destruct (Z.ltb_spec m 1); [ lia | reflexivity ].
Qed.

Lemma ppmt_zero_ok (m : Z) :
  (1 <= m)%Z ->
  numpy_financial.ppmt rate m nper pv 0
    = Ok (pmt_zero_value rate nper pv - ipmt_zero_value rate nper pv m).
Proof.
  intro Hm. unfold numpy_financial.ppmt.
  rewrite pmt_zero_ok. cbn [bind]. rewrite ipmt_zero_ok by exact Hm. reflexivity.
Qed.

Lemma ipmt_zero_value_zero (m : Z) : ipmt_zero_value rate nper pv m == 0.
Proof.
  unfold ipmt_zero_value. generalize (pmt_zero_value rate nper pv). intro p.
  rewrite rate_zero. ring.
Qed.

End ZeroRate.

Lemma rate_per_period_pos (loan_rate : Q) : 0 < loan_rate -> 0 < rate_per_period loan_rate.
Proof.
  intro H. unfold rate_per_period.
  apply Qlt_shift_div_l; [ reflexivity | ].
  apply Qlt_shift_div_l; [ reflexivity | ]. lra.
Qed.

Lemma rate_per_period_zero (loan_rate : Q) :
  rate_per_period loan_rate == 0 -> loan_rate == 0.
Proof.
  unfold rate_per_period. intro H.
  setoid_replace loan_rate with (loan_rate / 12 / 100 * 1200) by field.
  rewrite H. reflexivity.
Qed.

Lemma py_range_months_In (months m : Z) : In m (py_range 1 (months + 1)) -> (1 <= m)%Z.
Proof. intro H. apply py_range_In in H. lia. Qed.

Lemma py_range_months (months : Z) :
  py_range 1 (months + 1) = consecutive 1 (Z.to_nat months).
Proof. rewrite py_range_consecutive. f_equal. f_equal. lia. Qed.

(** The schedule at a positive loan rate. *)
Lemma loan_schedule_pos_rate (loan_rate : Q) (months initial : Z) (e : Q) :
  0 < loan_rate -> (1 <= months)%Z ->
  let r := rate_per_period loan_rate in
  let pv := inject_Z initial in
  loan_schedule loan_rate months initial e
    = Ok (schedule_rows (fun m => ipmt_value r m months pv)
            (fun m => ppmt_value r m months pv) e pv
            (consecutive 1 (Z.to_nat months))).
Proof.
  intros Hr Hn r pv. unfold loan_schedule. rewrite <- py_range_months.
  apply loan_loop_rows. intros m Hm. apply py_range_months_In in Hm.
  pose proof (rate_per_period_pos loan_rate Hr) as Hr'.
  split; [ now apply ipmt_ok | now apply ppmt_ok ].
Qed.

(** The schedule at a zero loan rate. *)
Lemma loan_schedule_zero_rate (loan_rate : Q) (months initial : Z) (e : Q) :
  loan_rate == 0 -> (1 <= months)%Z ->
  let r := rate_per_period loan_rate in
  let pv := inject_Z initial in
  loan_schedule loan_rate months initial e
    = Ok (schedule_rows (ipmt_zero_value r months pv)
            (fun m => pmt_zero_value r months pv - ipmt_zero_value r months pv m)
            e pv (py_range 1 (months + 1))).
Proof.
  intros Hr Hn r pv. unfold loan_schedule.
  apply loan_loop_rows. intros m Hm. apply py_range_months_In in Hm.
  assert (Hr' : r == 0) by (unfold r, rate_per_period; rewrite Hr; reflexivity).
  split; [ now apply ipmt_zero_ok | now apply ppmt_zero_ok ].
Qed.

Lemma schedule_rows_nonempty (ip pp : Z -> Q) (e rem : Q) (months : Z) :
  (1 <= months)%Z -> schedule_rows ip pp e rem (py_range 1 (months + 1)) <> [].
Proof.
  intros Hn E. apply (f_equal (@List.length Row)) in E.
  rewrite schedule_rows_length, py_range_length in E. cbn in E. lia.
Qed.

Lemma column_sum_nonempty (column : Row -> Q) (df : list Row) :
  df <> [] ->
  column_sum column df = Ok (fold_left (fun acc row => acc + column row) df 0).
Proof. destruct df; [ congruence | reflexivity ]. Qed.

(** C2.  The EMI is principal x r x (1+r)^n / ((1+r)^n - 1) with r =
    loan_rate/12/100; at r = 0 it is principal / months, with no division by
    zero, and the schedule's interest column then sums to 0. *)
Theorem emi_reducing_balance (loan_rate : Q) (months initial : Z) :
  0 <= loan_rate -> (1 <= months)%Z ->
  let r := loan_rate / 12 / 100 in
  let principal := inject_Z initial in
  exists e, emi loan_rate months initial = Ok e /\
    (~ r == 0 -> e == principal * r * (1 + r) ^ months / ((1 + r) ^ months - 1)) /\
    (r == 0 ->
       e == principal / inject_Z months /\
       exists rows interest,
         loan_schedule loan_rate months initial e = Ok rows /\
         total_loan_interest rows = Ok interest /\ interest == 0).
Proof.
  intros Hrate Hn r principal. fold (rate_per_period loan_rate) in r.
  destruct (Qlt_le_dec 0 loan_rate) as [Hpos | Hle].
  - pose proof (rate_per_period_pos loan_rate Hpos) as Hr. fold r in Hr.
    exists (- pmt_value r months principal). split; [ | split ].
    + unfold emi. fold r. fold principal. now rewrite pmt_ok.
    + intros _. now apply pmt_value_formula.
    + intro E. lra.
  - assert (Hz : loan_rate == 0) by lra.
    assert (Hr : r == 0) by (unfold r, rate_per_period; rewrite Hz; reflexivity).
    exists (- pmt_zero_value r months principal). split; [ | split ].
    + unfold emi. fold r. fold principal. now rewrite pmt_zero_ok.
    + intro N. contradiction.
    + intros _. split; [ now apply pmt_zero_value_formula | ].
      eexists. eexists. split; [ now apply loan_schedule_zero_rate | ].
      unfold total_loan_interest.
      rewrite column_sum_nonempty by now apply schedule_rows_nonempty.
      split; [ reflexivity | ].
      apply schedule_rows_interest_zero. intros m _.
      now apply ipmt_zero_value_zero.
Qed.

Lemma emi_reducing_balance_witness :
  exists e, emi 0 12 100000 = Ok e /\ e == 100000 / 12 /\
    exists rows interest,
      loan_schedule 0 12 100000 e = Ok rows /\
      total_loan_interest rows = Ok interest /\ interest == 0.
Proof.
  destruct (emi_reducing_balance 0 12 100000) as (e & E & _ & Z0).
  - discriminate.
  - lia.
  - exists e. split; [ exact E | ]. apply Z0. reflexivity.
Defined.

(** C1.  With a positive principal, tenure and loan rate the loop builds one
    row per month; the principal parts add up to the principal (exactly, so
    within the relative tolerance of 1e-6), and the remaining principal in
    the last month's row is 0. *)
Theorem amortization_repays_principal (loan_rate : Q) (months initial : Z) :
  (0 < initial)%Z -> (0 < months)%Z -> 0 < loan_rate ->
  exists e rows paid final,
    emi loan_rate months initial = Ok e /\
    loan_schedule loan_rate months initial e = Ok rows /\
    List.length rows = Z.to_nat months /\
    column_sum Principal rows = Ok paid /\
    paid == inject_Z initial /\
    Qabs (paid - inject_Z initial) <= (1 # 1000000) * inject_Z initial /\
    nth_error rows (Z.to_nat months - 1) = Some final /\
    Month final = months /\
    Remaining_Principal final == 0.
Proof.
  intros Hi Hn Hrate.
  assert (Hn' : (1 <= months)%Z) by lia.
  pose proof (rate_per_period_pos loan_rate Hrate) as Hr.
  set (r := rate_per_period loan_rate) in *.
  set (pv := inject_Z initial).
  set (e := - pmt_value r months pv).
  set (ip := fun m => ipmt_value r m months pv).
  set (pp := fun m => ppmt_value r m months pv).
  set (rows := schedule_rows ip pp e pv (consecutive 1 (Z.to_nat months))).
  assert (Hrep : repays pp (balance r months pv) 1 (Z.to_nat months))
    by (intros m _; now apply ppmt_value_repays).
  assert (Hlen : List.length rows = Z.to_nat months)
    by (unfold rows, consecutive;
        now rewrite schedule_rows_length, length_map, length_seq).
  assert (Hpaid : fold_left (fun acc row => acc + Principal row) rows 0 == pv).
  { unfold rows. rewrite (schedule_rows_principal_sum ip pp _ e _ 1 pv 0 Hrep).
    replace (1 - 1 + Z.of_nat (Z.to_nat months))%Z with months by lia.
    change (1 - 1)%Z with 0%Z.
    rewrite balance_start, balance_end by assumption. ring. }
  destruct (nth_error rows (Z.to_nat months - 1)) as [final | ] eqn:Hfinal;
    [ | apply nth_error_None in Hfinal; lia ].
  exists e, rows, (fold_left (fun acc row => acc + Principal row) rows 0), final.
  split; [ unfold emi; fold r; fold pv; now rewrite pmt_ok | ].
  split; [ now apply loan_schedule_pos_rate | ].
  split; [ exact Hlen | ].
  split; [ apply column_sum_nonempty; intro E; rewrite E in Hlen; cbn in Hlen; lia | ].
  split; [ exact Hpaid | ].
  assert (Hmonth : Month final = months).
  { pose proof (map_nth_error Month _ _ Hfinal) as M.
    unfold rows in M. rewrite schedule_rows_months in M.
    unfold consecutive in M.
    rewrite (map_nth_error (fun i => (1 + Z.of_nat i)%Z) (Z.to_nat months - 1)
               (seq 0 (Z.to_nat months)) (d := (Z.to_nat months - 1)%nat)) in M.
    - assert (M' : (1 + Z.of_nat (Z.to_nat months - 1))%Z = Month final)
        by congruence.
      lia.
    - rewrite (nth_error_nth' _ 0%nat) by (rewrite length_seq; lia).
      rewrite seq_nth by lia. reflexivity. }
  split; [ | split; [ exact Hfinal | split; [ exact Hmonth | ] ] ].
  - rewrite Hpaid. setoid_replace (pv - pv) with 0 by ring.
    cbn [Qabs Qnum Z.abs]. apply Qmult_le_0_compat; [ discriminate | ].
    change (inject_Z 0 <= inject_Z initial). rewrite <- Zle_Qle. lia.
  - pose proof (schedule_rows_balance ip pp (balance r months pv) e
                  (Z.to_nat months) 1 pv Hrep) as F.
    rewrite Forall_forall in F.
    destruct (F (Qeq_sym _ _ (balance_start r months pv Hr)) final
                (nth_error_In _ _ Hfinal)) as [Hb _].
    rewrite Hb, Hmonth. now apply balance_end.
Qed.

Lemma amortization_repays_principal_witness :
  exists e rows paid final,
    emi 10 12 100000 = Ok e /\
    loan_schedule 10 12 100000 e = Ok rows /\
    List.length rows = 12%nat /\
    column_sum Principal rows = Ok paid /\
    paid == 100000 /\
    Qabs (paid - 100000) <= (1 # 1000000) * 100000 /\
    nth_error rows 11 = Some final /\
    Month final = 12%Z /\
    Remaining_Principal final == 0.
Proof.
  apply (amortization_repays_principal 10 12 100000); reflexivity.
Defined.

(** ** The whole run *)

Lemma default_inputs_in_range : in_widget_range default_inputs.
Proof.
  unfold in_widget_range, default_inputs; cbn.
  repeat split; try lia; try discriminate. now left.
Defined.

(** A run returns as soon as the principal is not 0, the Bond 2 and loan
    rates are positive and the tenure is at least one month. *)
Lemma calculate_returns (i : Inputs) :
  initial i <> 0%Z -> 0 < bond2_rate i -> 0 < loan_rate i -> (1 <= months i)%Z ->
  exists res, calculate i = Ok res.
Proof.
  intros Hini Hb2 Hloan Hn.
  pose proof (rate_per_period_pos _ Hloan) as Hr.
  pose proof (monthly_return_pos _ Hb2) as Hg.
  unfold calculate, emi.
  rewrite pmt_ok by assumption. cbn [bind].
  rewrite loan_schedule_pos_rate by assumption. cbn [bind].
  unfold total_loan_interest. rewrite column_sum_nonempty.
  2:{ intro E. apply (f_equal (@List.length Row)) in E.
      unfold consecutive in E.
      rewrite schedule_rows_length, length_map, length_seq in E.
      cbn in E. lia. }
  cbn [bind]. unfold bond2.
  rewrite lumpsum_value_ok, sip_value_ok by exact Hg. cbn [bind].
  unfold annualized_return.
  rewrite np_truediv_ok by (apply inject_Z_nonzero; exact Hini).
  rewrite py_truediv_ok by (apply inject_Z_nonzero; lia). cbn [bind].
  unfold bond2_values. rewrite projection_loop_ok by exact Hg. cbn [bind].
  eexists. reflexivity.
Qed.

(** C4 (as the code has it).  The calculation block checks nothing: a
    non-positive principal or tenure is kept out by the widgets' bounds
    alone, and for every input within those bounds the run goes through and
    returns all its results. *)
Theorem calculate_in_widget_range (i : Inputs) :
  in_widget_range i -> exists res, calculate i = Ok res.
Proof.
  intros (Hini & _ & Hb2 & Hloan & Hn & _).
  apply calculate_returns; try lra; lia.
Qed.

Lemma calculate_in_widget_range_witness :
  in_widget_range default_inputs /\ exists res, calculate default_inputs = Ok res.
Proof.
  split; [ exact default_inputs_in_range | ].
  apply (calculate_in_widget_range default_inputs default_inputs_in_range).
Defined.

(** No validation: a negative principal is computed with like any other. *)
Lemma negative_principal_not_rejected :
  exists res,
    calculate {| initial := -100000; bond1_rate := 14; bond2_rate := 10;
                 loan_rate := 10; months := 12;
                 investor_type := "Individual (30%)"; custom_rate := 25;
                 bond2_tax := 15 |} = Ok res.
Proof. apply calculate_returns; cbn; [ discriminate | reflexivity .. | lia ]. Qed.

(** A tenure below 1 month does end in an error, but not from a check: the
    EMI has been computed by then, the loop has run over no month, and
    reading the "Interest" column of the empty frame fails. *)
Lemma negative_tenure_key_error :
  (exists e, emi 10 (-1) 100000 = Ok e) /\
  (forall e, loan_schedule 10 (-1) 100000 e = Ok []) /\
  calculate {| initial := 100000; bond1_rate := 14; bond2_rate := 10;
               loan_rate := 10; months := -1;
               investor_type := "Individual (30%)"; custom_rate := 25;
               bond2_tax := 15 |} = Raise KeyError.
Proof.
  split; [ eexists; reflexivity | split; [ reflexivity | ] ].
  vm_compute. reflexivity.
Qed.

(** A zero principal is not rejected either: everything up to the net gain
    is computed, and NumPy's division of the net gain by 0 gives nan. *)
Lemma zero_principal_not_rejected :
  (exists e rows tli b,
     emi 10 2 0 = Ok e /\ loan_schedule 10 2 0 e = Ok rows /\
     total_loan_interest rows = Ok tli /\ bond2 0 14 10 2 = Ok b) /\
  calculate {| initial := 0; bond1_rate := 14; bond2_rate := 10;
               loan_rate := 10; months := 2;
               investor_type := "Individual (30%)"; custom_rate := 25;
               bond2_tax := 15 |} = NonFinite.
Proof.
  split.
  - do 4 eexists. repeat split; vm_compute; reflexivity.
  - vm_compute. reflexivity.
Qed.

(** C7 at the widgets' starting values. *)
Lemma net_gain_annualized_witness :
  exists res, calculate default_inputs = Ok res /\
    r_net_gain res
      = r_total_gain res - r_total_loan_interest res - total_tax (r_tax res) /\
    r_annualized_return res
      = r_net_gain res / 100000 * (12 / 12) * 100 /\
    exists doubled,
      annualized_return (r_net_gain res) 100000 24 = Ok doubled /\
      doubled == r_annualized_return res / 2.
Proof.
  destruct (calculate_returns default_inputs) as (res & E);
    [ discriminate | reflexivity | reflexivity | cbn; lia | ].
  exists res. split; [ exact E | ].
  exact (net_gain_annualized default_inputs res E).
Defined.

(** C9 at the widgets' starting values. *)
Lemma growth_projection_monotone_witness :
  exists vs, bond2_values 100000 14 10 12 = Ok vs /\
    List.length vs = 12%nat /\
    forall j k, (j <= k < List.length vs)%nat -> nth j vs 0 <= nth k vs 0.
Proof.
  destruct (growth_projection_monotone 100000 14 10 12) as [M E];
    [ lia | discriminate | discriminate | ].
  destruct (E eq_refl) as (vs & Hvs & Hlen & _).
  exists vs. split; [ exact Hvs | split; [ exact Hlen | exact (M vs Hvs) ] ].
Defined.

(** The Company branch's total tax does go below zero on inputs the widgets
    allow: low bond rates, a dear loan, a long tenure. *)
Example company_total_tax_negative :
  let i := {| initial := 100000; bond1_rate := 1; bond2_rate := 1;
              loan_rate := 20; months := 1;
              investor_type := "Private Ltd (25%)"; custom_rate := 25;
              bond2_tax := 15 |} in
  in_widget_range i /\
  exists res, calculate i = Ok res /\ total_tax (r_tax res) < 0.
Proof.
  intro i. split.
  - unfold in_widget_range, i; cbn.
    repeat split; try lia; try discriminate. right; now left.
  - destruct (calculate i) as [res | e | ] eqn:E;
      try (vm_compute in E; discriminate E).
    exists res. split; [ reflexivity | ].
    vm_compute in E. injection E as <-. vm_compute. reflexivity.
Qed.

(** * Further properties of the calculation *)

(** ** Runs that return *)

Lemma default_run : exists res, calculate default_inputs = Ok res.
Proof.
  apply calculate_returns; [ discriminate | reflexivity | reflexivity | cbn; lia ].
Qed.

Lemma emi_inv (loan_rate : Q) (months initial : Z) (e : Q) :
  emi loan_rate months initial = Ok e ->
  exists total,
    numpy_financial.pmt (rate_per_period loan_rate) months (inject_Z initial) 0 0
      = Ok total /\ e = - total.
Proof.
  unfold emi. intro H. bind_inv H. injection H as <-. now exists v.
Qed.

(** What every row of a schedule that was built looks like. *)
Lemma loan_loop_inv (rate : Q) (months initial : Z) (e total : Q) :
  numpy_financial.pmt rate months (inject_Z initial) 0 0 = Ok total ->
  forall todo rem rows,
    loan_loop rate months initial e rem todo = Ok rows ->
    map Month rows = todo /\
    Forall (fun row => EMI row = e /\ Principal row + Interest row == - total) rows.
Proof.
  intros Hpmt. induction todo as [ | m rest IH ]; intros rem rows H.
  - cbn in H. injection H as <-. split; constructor.
  - cbn [loan_loop] in H. do 3 bind_inv H. injection H as <-.
    unfold numpy_financial.ppmt in E0. rewrite Hpmt in E0. cbn [bind] in E0.
    rewrite E in E0. cbn [bind] in E0. injection E0 as <-.
    destruct (IH _ _ E1) as [Hm Hf]. split.
    + cbn [map Month]. now rewrite Hm.
    + constructor; [ | exact Hf ].
      cbn [EMI Principal Interest]. split; [ reflexivity | ring ].
Qed.

Lemma projection_loop_length (P c r : Q) (months_list : list Z) :
  forall vs, projection_loop P c r months_list = Ok vs ->
  List.length vs = List.length months_list.
Proof.
  induction months_list as [ | m rest IH ]; intros vs H.
  - cbn in H. now injection H as <-.
  - cbn [projection_loop] in H. do 3 bind_inv H. injection H as <-.
    cbn [List.length]. now rewrite (IH _ E1).
Qed.

(** A run that returns had a tenure of at least one month. *)
Lemma calculate_months_pos (i : Inputs) (res : Results) :
  calculate i = Ok res ->
  (1 <= months i)%Z /\
  map Month (r_loan_schedule res) = py_range 1 (months i + 1).
Proof.
  intro H. destruct (calculate_inv i res H) as (He & Hs & Ht & _).
  destruct (emi_inv _ _ _ _ He) as (total & Hp & _).
  destruct (loan_loop_inv _ _ _ _ _ Hp _ _ _ Hs) as [Hm _].
  split; [ | exact Hm ].
  destruct (r_loan_schedule res) as [ | row rows ]; [ discriminate Ht | ].
  apply (f_equal (@List.length Z)) in Hm.
  rewrite py_range_length in Hm. cbn [map List.length] in Hm. lia.
Qed.

(** X1.  In every run that returns, the schedule has one row per month, in
    the order 1, 2, ..., months, and every row carries the same EMI, the one
    shown in the summary. *)
Theorem schedule_months_and_emi (i : Inputs) (res : Results) :
  calculate i = Ok res ->
  map Month (r_loan_schedule res) = months_list (months i) /\
  List.length (r_loan_schedule res) = Z.to_nat (months i) /\
  Forall (fun row => EMI row = r_emi res) (r_loan_schedule res).
Proof.
  intro H. destruct (calculate_months_pos i res H) as [Hn Hm].
  destruct (calculate_inv i res H) as (He & Hs & _).
  destruct (emi_inv _ _ _ _ He) as (total & Hp & _).
  destruct (loan_loop_inv _ _ _ _ _ Hp _ _ _ Hs) as [_ Hf].
  split; [ exact Hm | split ].
  - rewrite <- (length_map Month), Hm, py_range_length. f_equal. lia.
  - eapply Forall_impl; [ | exact Hf ]. cbn beta. now intros row [E _].
Qed.

Lemma schedule_months_and_emi_witness :
  exists res, calculate default_inputs = Ok res /\
    map Month (r_loan_schedule res) = [1; 2; 3; 4; 5; 6; 7; 8; 9; 10; 11; 12]%Z /\
    List.length (r_loan_schedule res) = 12%nat /\
    Forall (fun row => EMI row = r_emi res) (r_loan_schedule res).
Proof.
  destruct default_run as (res & E). exists res. split; [ exact E | ].
  exact (schedule_months_and_emi default_inputs res E).
Defined.

(** X2.  In every run that returns, each row's principal part and interest
    part add up to the EMI. *)
Theorem schedule_row_splits_emi (i : Inputs) (res : Results) :
  calculate i = Ok res ->
  Forall (fun row => Principal row + Interest row == EMI row) (r_loan_schedule res).
Proof.
  intro H. destruct (calculate_inv i res H) as (He & Hs & _).
  destruct (emi_inv _ _ _ _ He) as (total & Hp & Ee).
  destruct (loan_loop_inv _ _ _ _ _ Hp _ _ _ Hs) as [_ Hf].
  eapply Forall_impl; [ | exact Hf ]. cbn beta.
  intros row [E1 E2]. now rewrite E1, Ee.
Qed.

Lemma schedule_row_splits_emi_witness :
  exists res, calculate default_inputs = Ok res /\
    Forall (fun row => Principal row + Interest row == EMI row) (r_loan_schedule res).
Proof.
  destruct default_run as (res & E). exists res. split; [ exact E | ].
  exact (schedule_row_splits_emi default_inputs res E).
Defined.

(** X3.  In every run that returns, the two series of the chart have exactly
    one point per entry of [months_list]: the plot never gets x and y of
    different lengths. *)
Theorem chart_series_lengths (i : Inputs) (res : Results) :
  calculate i = Ok res ->
  List.length (r_bond2_values res) = List.length (months_list (months i)) /\
  List.length (loan_outstanding (r_loan_schedule res))
    = List.length (months_list (months i)).
Proof.
  intro H. destruct (calculate_months_pos i res H) as [_ Hm].
  destruct (calculate_inv i res H) as (_ & _ & _ & _ & _ & _ & _ & _ & _ & _ & Hv).
  split.
  - exact (projection_loop_length _ _ _ _ _ Hv).
  - unfold loan_outstanding, months_list.
    now rewrite length_map, <- Hm, length_map.
Qed.

Lemma chart_series_lengths_witness :
  exists res, calculate default_inputs = Ok res /\
    List.length (r_bond2_values res) = 12%nat /\
    List.length (loan_outstanding (r_loan_schedule res)) = 12%nat.
Proof.
  destruct default_run as (res & E). exists res. split; [ exact E | ].
  exact (chart_series_lengths default_inputs res E).
Defined.

(** ** The schedule at a positive loan rate *)

Lemma schedule_rows_parts (ip pp : Z -> Q) (e : Q) (todo : list Z) : forall rem,
  Forall (fun row => Interest row = - ip (Month row) /\
                     Principal row = - pp (Month row))
         (schedule_rows ip pp e rem todo).
Proof.
  induction todo as [ | m rest IH ]; intro rem; constructor.
  - split; reflexivity.
  - apply IH.
Qed.

Lemma column_sum_inv (column : Row -> Q) (df : list Row) (s : Q) :
  column_sum column df = Ok s ->
  df <> [] /\ s = fold_left (fun acc row => acc + column row) df 0.
Proof.
  destruct df as [ | row rows ]; [ discriminate | ].
  cbn [column_sum]. intro H. injection H as <-. split; [ discriminate | reflexivity ].
Qed.

Lemma fold_left_sum_le (column : Row -> Q) (rows : list Row) : forall acc,
  Forall (fun row => 0 <= column row) rows ->
  acc <= fold_left (fun acc row => acc + column row) rows acc.
Proof.
  induction rows as [ | row rows IH ]; intros acc H; [ apply Qle_refl | ].
  inversion H as [ | ? ? H1 H2 ]; subst. cbn [fold_left].
  apply Qle_trans with (acc + column row); [ lra | now apply IH ].
Qed.

Lemma fold_left_sum_pos (column : Row -> Q) (rows : list Row) (acc : Q) :
  Forall (fun row => 0 < column row) rows -> rows <> [] ->
  acc < fold_left (fun acc row => acc + column row) rows acc.
Proof.
  intros H Hne. destruct rows as [ | row rows ]; [ congruence | ].
  inversion H as [ | ? ? H1 H2 ]; subst. cbn [fold_left].
  apply Qlt_le_trans with (acc + column row); [ lra | ].
  apply fold_left_sum_le. eapply Forall_impl; [ | exact H2 ].
  cbn beta. intros r0 Hr. now apply Qlt_le_weak.
Qed.

(** Interest and principal columns together hold one EMI per row. *)
Lemma fold_left_parts (e : Q) (rows : list Row) : forall a b,
  Forall (fun row => Principal row + Interest row == e) rows ->
  fold_left (fun acc row => acc + Interest row) rows a
  + fold_left (fun acc row => acc + Principal row) rows b
  == a + b + inject_Z (Z.of_nat (List.length rows)) * e.
Proof.
  induction rows as [ | row rows IH ]; intros a b H.
  - cbn. ring.
  - inversion H as [ | ? ? H1 H2 ]; subst. cbn [fold_left List.length].
    rewrite (IH _ _ H2), Nat2Z.inj_succ, <- Z.add_1_l, inject_Z_plus, <- H1.
    change (inject_Z 1) with 1. ring.
Qed.

Section PositiveRateBalance.

Variables (rate : Q) (nper : Z) (pv : Q).
Hypothesis rate_pos : 0 < rate.
Hypothesis nper_pos : (1 <= nper)%Z.

Lemma balance_closed (k : Z) :
  balance rate nper pv k
    == pv * ((1 + rate) ^ nper - (1 + rate) ^ k) / ((1 + rate) ^ nper - 1).
Proof.
  pose proof (growth_gt_1 rate nper rate_pos nper_pos) as G.
  unfold balance, fv_value, pmt_value.
  generalize dependent ((1 + rate) ^ nper). intros T G.
  generalize ((1 + rate) ^ k). intro X.
  field. split; lra.
Qed.

Lemma balance_decreasing (j k : Z) :
  0 < pv -> (j < k)%Z -> balance rate nper pv k < balance rate nper pv j.
Proof.
  intros Hpv Hjk.
  pose proof (growth_gt_1 rate nper rate_pos nper_pos) as G.
  assert (Hpow : (1 + rate) ^ j < (1 + rate) ^ k)
    by (apply Qpower_lt_compat_l; [ exact Hjk | lra ]).
  rewrite !balance_closed.
  apply Qmult_lt_compat_r; [ apply Qinv_lt_0_compat; lra | ].
  apply Qmult_lt_l; [ exact Hpv | lra ].
Qed.

Lemma balance_pos (k : Z) :
  0 < pv -> (k < nper)%Z -> 0 < balance rate nper pv k.
Proof.
  intros Hpv Hk.
  rewrite <- (balance_end rate nper pv rate_pos nper_pos).
  now apply balance_decreasing.
Qed.

Lemma principal_sum_pos_rate (e : Q) :
  fold_left (fun acc row => acc + Principal row)
    (schedule_rows (fun m => ipmt_value rate m nper pv)
       (fun m => ppmt_value rate m nper pv) e pv
       (consecutive 1 (Z.to_nat nper))) 0 == pv.
Proof.
  assert (Hrep : repays (fun m => ppmt_value rate m nper pv)
                   (balance rate nper pv) 1 (Z.to_nat nper))
    by (intros m _; now apply ppmt_value_repays).
  rewrite (schedule_rows_principal_sum _ _ _ e _ 1 pv 0 Hrep).
  replace (1 - 1 + Z.of_nat (Z.to_nat nper))%Z with nper by lia.
  change (1 - 1)%Z with 0%Z.
  rewrite balance_start, balance_end by assumption. ring.
Qed.

(** Every row in terms of the balance before and after its payment. *)
Lemma pos_rate_rows (e : Q) :
  Forall (fun row =>
            (1 <= Month row <= nper)%Z /\
            Remaining_Principal row == balance rate nper pv (Month row) /\
            Principal row
              == balance rate nper pv (Month row - 1)
                 - balance rate nper pv (Month row) /\
            Interest row == balance rate nper pv (Month row - 1) * rate)
         (schedule_rows (fun m => ipmt_value rate m nper pv)
            (fun m => ppmt_value rate m nper pv) e pv
            (consecutive 1 (Z.to_nat nper))).
Proof.
  set (ip := fun m => ipmt_value rate m nper pv).
  set (pp := fun m => ppmt_value rate m nper pv).
  assert (Hrep : repays pp (balance rate nper pv) 1 (Z.to_nat nper))
    by (intros m _; now apply ppmt_value_repays).
  pose proof (schedule_rows_balance ip pp (balance rate nper pv) e
                (Z.to_nat nper) 1 pv Hrep
                (Qeq_sym _ _ (balance_start rate nper pv rate_pos))) as F1.
  pose proof (schedule_rows_parts ip pp e (consecutive 1 (Z.to_nat nper)) pv) as F2.
  rewrite Forall_forall in F1, F2 |- *. intros row Hin.
  destruct (F1 row Hin) as [Hb Hm]. destruct (F2 row Hin) as [Hi Hp].
  split; [ lia | split; [ exact Hb | split ] ].
  - rewrite Hp. now apply ppmt_value_repays.
  - rewrite Hi. apply ipmt_value_interest.
Qed.

End PositiveRateBalance.

(** The schedule of a run that returned at a positive loan rate. *)
Lemma calculate_pos_rate_rows (i : Inputs) (res : Results) :
  calculate i = Ok res -> 0 < loan_rate i ->
  let r := rate_per_period (loan_rate i) in
  let pv := inject_Z (initial i) in
  0 < r /\ (1 <= months i)%Z /\
  r_emi res = - pmt_value r (months i) pv /\
  r_loan_schedule res
    = schedule_rows (fun m => ipmt_value r m (months i) pv)
        (fun m => ppmt_value r m (months i) pv) (r_emi res) pv
        (consecutive 1 (Z.to_nat (months i))).
Proof.
  intros H Hrate r pv.
  destruct (calculate_months_pos i res H) as [Hn _].
  destruct (calculate_inv i res H) as (He & Hs & _).
  pose proof (rate_per_period_pos _ Hrate) as Hr.
  split; [ exact Hr | split; [ exact Hn | split ] ].
  - unfold emi in He. rewrite (pmt_ok _ _ _ Hr Hn) in He.
    cbn [bind] in He. now injection He as <-.
  - rewrite (loan_schedule_pos_rate _ _ _ _ Hrate Hn) in Hs.
    now injection Hs as <-.
Qed.

(** X4.  Reducing balance: at a positive loan rate, each row's interest is
    the monthly rate times the balance before that payment (what remains
    after it plus what it repays). *)
Theorem interest_on_reducing_balance (i : Inputs) (res : Results) :
  calculate i = Ok res -> 0 < loan_rate i ->
  Forall (fun row =>
            Interest row
              == rate_per_period (loan_rate i)
                 * (Remaining_Principal row + Principal row))
         (r_loan_schedule res).
Proof.
  intros H Hrate.
  destruct (calculate_pos_rate_rows i res H Hrate) as (Hr & Hn & _ & ->).
  eapply Forall_impl; [ | apply (pos_rate_rows _ _ _ Hr Hn) ]. cbn beta.
  intros row (_ & Hb & Hp & Hi). rewrite Hi, Hb, Hp. ring.
Qed.

Lemma interest_on_reducing_balance_witness :
  exists res, calculate default_inputs = Ok res /\
    Forall (fun row =>
              Interest row
                == rate_per_period 10 * (Remaining_Principal row + Principal row))
           (r_loan_schedule res).
Proof.
  destruct default_run as (res & E). exists res. split; [ exact E | ].
  exact (interest_on_reducing_balance default_inputs res E eq_refl).
Defined.



(** X6.  At a positive loan rate and principal, every row has a positive
    interest part and a positive principal part: the EMI always covers the
    month's interest and repays something. *)
Theorem schedule_parts_positive (i : Inputs) (res : Results) :
  calculate i = Ok res -> 0 < loan_rate i -> (0 < initial i)%Z ->
  Forall (fun row => 0 < Principal row /\ 0 < Interest row /\ Interest row < EMI row)
         (r_loan_schedule res).
Proof.
  intros H Hrate Hini.
  destruct (calculate_inv i res H) as (He & Hs & _).
  destruct (emi_inv _ _ _ _ He) as (total & Hp & Ee).
  destruct (loan_loop_inv _ _ _ _ _ Hp _ _ _ Hs) as [_ Hsplit].
  destruct (calculate_pos_rate_rows i res H Hrate) as (Hr & Hn & _ & Hrows).
  pose proof (pos_rate_rows _ _ (inject_Z (initial i)) Hr Hn (r_emi res)) as F.
  rewrite <- Hrows in F. rewrite Forall_forall in F, Hsplit |- *.
  assert (Hpv : 0 < inject_Z (initial i))
    by (change (inject_Z 0 < inject_Z (initial i)); rewrite <- Zlt_Qlt; exact Hini).
  intros row Hin. destruct (F row Hin) as (Hm & _ & HP & HI).
  destruct (Hsplit row Hin) as [HE HS].
  assert (Hprin : 0 < Principal row).
  { rewrite HP.
    pose proof (balance_decreasing _ _ _ Hr Hn (Month row - 1) (Month row) Hpv) as D.
    assert (L : (Month row - 1 < Month row)%Z) by lia. specialize (D L). lra. }
  split; [ exact Hprin | split ].
  - rewrite HI. apply Qmult_lt_0_compat; [ | exact Hr ].
    apply balance_pos; try assumption. lia.
  - rewrite HE, Ee, <- HS. lra.
Qed.

Lemma schedule_parts_positive_witness :
  exists res, calculate default_inputs = Ok res /\
    Forall (fun row => 0 < Principal row /\ 0 < Interest row /\ Interest row < EMI row)
           (r_loan_schedule res).
Proof.
  destruct default_run as (res & E). exists res. split; [ exact E | ].
  exact (schedule_parts_positive default_inputs res E eq_refl eq_refl).
Defined.

(** The interest column against the EMIs. *)
Lemma total_loan_interest_closed (i : Inputs) (res : Results) :
  calculate i = Ok res -> 0 < loan_rate i ->
  r_total_loan_interest res
    == inject_Z (months i) * r_emi res - inject_Z (initial i).
Proof.
  intros H Hrate.
  destruct (calculate_inv i res H) as (He & Hs & Ht & _).
  destruct (emi_inv _ _ _ _ He) as (total & Hp & Ee).
  destruct (loan_loop_inv _ _ _ _ _ Hp _ _ _ Hs) as [_ Hsplit].
  destruct (calculate_pos_rate_rows i res H Hrate) as (Hr & Hn & _ & Hrows).
  destruct (column_sum_inv _ _ _ Ht) as [Hne Hsum].
  assert (Hparts : Forall (fun row => Principal row + Interest row == r_emi res)
                     (r_loan_schedule res)).
  { eapply Forall_impl; [ | exact Hsplit ]. cbn beta.
    intros row [_ E]. now rewrite E, Ee. }
  pose proof (fold_left_parts _ _ 0 0 Hparts) as S.
  rewrite <- Hsum in S.
  assert (Hlen : Z.of_nat (List.length (r_loan_schedule res)) = months i).
  { rewrite Hrows. unfold consecutive.
    rewrite schedule_rows_length, length_map, length_seq. lia. }
  rewrite Hlen in S.
  assert (Hprin : fold_left (fun acc row => acc + Principal row)
                    (r_loan_schedule res) 0 == inject_Z (initial i))
    by (rewrite Hrows; now apply principal_sum_pos_rate).
  rewrite Hprin in S. lra.
Qed.

Lemma total_loan_interest_pos (i : Inputs) (res : Results) :
  calculate i = Ok res -> 0 < loan_rate i -> (0 < initial i)%Z ->
  0 < r_total_loan_interest res.
Proof.
  intros H Hrate Hini.
  destruct (calculate_inv i res H) as (_ & _ & Ht & _).
  destruct (calculate_pos_rate_rows i res H Hrate) as (Hr & Hn & _ & Hrows).
  destruct (column_sum_inv _ _ _ Ht) as [Hne Hsum].
  rewrite Hsum. apply fold_left_sum_pos; [ | exact Hne ].
  assert (Hpv : 0 < inject_Z (initial i))
    by (change (inject_Z 0 < inject_Z (initial i)); rewrite <- Zlt_Qlt; exact Hini).
  pose proof (pos_rate_rows _ _ (inject_Z (initial i)) Hr Hn (r_emi res)) as F.
  rewrite <- Hrows in F. eapply Forall_impl; [ | exact F ]. cbn beta.
  intros row (Hm & _ & _ & HI). rewrite HI.
  apply Qmult_lt_0_compat; [ | exact Hr ].
  apply balance_pos; try assumption. lia.
Qed.

(** X7.  At a positive loan rate the total loan interest is what the EMIs
    add up to beyond the principal, months x EMI - principal; it is positive
    for a positive principal. *)
Theorem total_interest_is_emis_less_principal (i : Inputs) (res : Results) :
  calculate i = Ok res -> 0 < loan_rate i ->
  r_total_loan_interest res
    == inject_Z (months i) * r_emi res - inject_Z (initial i) /\
  ((0 < initial i)%Z -> 0 < r_total_loan_interest res).
Proof.
  intros H Hrate. split.
  - now apply total_loan_interest_closed.
  - now apply total_loan_interest_pos.
Qed.

Lemma total_interest_is_emis_less_principal_witness :
  exists res, calculate default_inputs = Ok res /\
    r_total_loan_interest res == 12 * r_emi res - 100000 /\
    0 < r_total_loan_interest res.
Proof.
  destruct default_run as (res & E). exists res. split; [ exact E | ].
  destruct (total_interest_is_emis_less_principal default_inputs res E eq_refl)
    as [S P].
  split; [ exact S | apply P; reflexivity ].
Defined.

(** ** Bond 2 never loses *)

Lemma bernoulli (r : Q) (n : Z) :
  0 <= r -> (0 <= n)%Z -> 1 + inject_Z n * r <= (1 + r) ^ n.
Proof.
  intros Hr Hn. revert n Hn. apply natlike_ind.
  - change ((1 + r) ^ 0) with 1. change (inject_Z 0) with 0. lra.
  - intros n Hn IH.
    assert (E : (1 + r) ^ Z.succ n == (1 + r) ^ n * (1 + r)).
    { unfold Z.succ. rewrite Qpower_plus by lra. reflexivity. }
    rewrite E. unfold Z.succ. rewrite inject_Z_plus. change (inject_Z 1) with 1.
    assert (HN : 0 <= inject_Z n)
      by (change (inject_Z 0 <= inject_Z n); rewrite <- Zle_Qle; exact Hn).
    generalize dependent ((1 + r) ^ n). generalize dependent (inject_Z n).
    intros N HN X IH _.
    apply Qle_trans with ((1 + N * r) * (1 + r)).
    + assert (0 <= N * r * r)
        by (apply Qmult_le_0_compat; [ apply Qmult_le_0_compat | ]; assumption).
      setoid_replace ((1 + N * r) * (1 + r)) with (1 + (N + 1) * r + N * r * r)
        by ring.
      lra.
    + apply Qmult_le_compat_r; [ exact IH | lra ].
Qed.

(** The record [bond2] builds at a positive Bond 2 rate. *)
Lemma bond2_pos_rate (initial : Z) (bond1_rate bond2_rate : Q) (months : Z) :
  0 < bond2_rate ->
  let r := monthly_bond2_return bond2_rate in
  let c := monthly_bond1_interest initial bond1_rate in
  let lumpsum := inject_Z initial * (1 + r) ^ months in
  let sip := c * (((1 + r) ^ months - 1) / r) * (1 + r) in
  bond2 initial bond1_rate bond2_rate months
    = Ok {| monthly_sip := c; initial_bond2 := inject_Z initial;
            bond2_lumpsum := lumpsum; bond2_sip := sip;
            total_bond2_value := lumpsum + sip;
            bond2_gain := lumpsum + sip - inject_Z initial - c * inject_Z months |}.
Proof.
  intros H r c lumpsum sip.
  pose proof (monthly_return_pos bond2_rate H) as Hr.
  unfold bond2. rewrite lumpsum_value_ok, sip_value_ok by exact Hr. reflexivity.
Qed.

Lemma monthly_bond1_interest_nonneg (initial : Z) (bond1_rate : Q) :
  (0 <= initial)%Z -> 0 <= bond1_rate -> 0 <= monthly_bond1_interest initial bond1_rate.
Proof.
  intros Hi Hb. unfold monthly_bond1_interest.
  apply Qmult_le_0_compat.
  - change (inject_Z 0 <= inject_Z initial). rewrite <- Zle_Qle. exact Hi.
  - apply Qle_shift_div_l; [ reflexivity | ].
    apply Qle_shift_div_l; [ reflexivity | ]. lra.
Qed.

(** Growth of a lump sum [P] and of a SIP of [c] a month over [n] months at a
    monthly rate [r] is at least what was paid in. *)
Lemma growth_covers_payments (P c r : Q) (n : Z) :
  0 <= P -> 0 <= c -> 0 < r -> (0 <= n)%Z ->
  0 <= P * (1 + r) ^ n + c * (((1 + r) ^ n - 1) / r) * (1 + r) - P - c * inject_Z n.
Proof.
  intros HP Hc Hr Hn.
  pose proof (bernoulli r n (Qlt_le_weak _ _ Hr) Hn) as B.
  assert (HN : 0 <= inject_Z n)
    by (change (inject_Z 0 <= inject_Z n); rewrite <- Zle_Qle; exact Hn).
  generalize dependent ((1 + r) ^ n). generalize dependent (inject_Z n).
  intros N HN T B.
  assert (HA : N <= (T - 1) / r) by (apply Qle_shift_div_l; [ exact Hr | lra ]).
  generalize dependent ((T - 1) / r). intros A HA.
  assert (H1 : 0 <= P * (T - 1))
    by (apply Qmult_le_0_compat; [ exact HP | ];
        assert (0 <= N * r) by (apply Qmult_le_0_compat; lra); lra).
  assert (H2 : 0 <= c * ((A - N) + A * r)).
  { apply Qmult_le_0_compat; [ exact Hc | ].
    assert (0 <= A * r) by (apply Qmult_le_0_compat; lra). lra. }
  setoid_replace (P * T + c * A * (1 + r) - P - c * N)
    with (P * (T - 1) + c * ((A - N) + A * r)) by ring.
  lra.
Qed.

(** X8.  With a non-negative principal and Bond 1 rate and a positive Bond 2
    rate, the Bond 2 gain of a run is never negative, and it is positive for
    a positive principal: Bond 2 is never taxed on a loss. *)
Theorem bond2_gain_nonneg (i : Inputs) (res : Results) :
  calculate i = Ok res ->
  (0 <= initial i)%Z -> 0 <= bond1_rate i -> 0 < bond2_rate i ->
  0 <= bond2_gain (r_bond2 res) /\
  ((0 < initial i)%Z -> 0 < bond2_gain (r_bond2 res)).
Proof.
  intros H Hi Hb1 Hb2.
  destruct (calculate_months_pos i res H) as [Hn _].
  destruct (calculate_inv i res H) as (_ & _ & _ & Hb & _).
  rewrite (bond2_pos_rate _ _ _ _ Hb2) in Hb. injection Hb as Hb.
  rewrite <- Hb. cbn [bond2_gain].
  pose proof (monthly_return_pos _ Hb2) as Hr.
  pose proof (monthly_bond1_interest_nonneg _ _ Hi Hb1) as Hc.
  split.
  - apply growth_covers_payments; try assumption; [ | lia ].
    change (inject_Z 0 <= inject_Z (initial i)). rewrite <- Zle_Qle. exact Hi.
  - intro Hpos.
    set (r := monthly_bond2_return (bond2_rate i)) in *.
    set (c := monthly_bond1_interest (initial i) (bond1_rate i)) in *.
    assert (HP : 0 < inject_Z (initial i))
      by (change (inject_Z 0 < inject_Z (initial i)); rewrite <- Zlt_Qlt; exact Hpos).
    assert (G : 1 < (1 + r) ^ months i) by (apply Qpower_1_lt; [ lra | lia ]).
    assert (Z0 : (0 <= months i)%Z) by lia.
    pose proof (growth_covers_payments 0 c r (months i) (Qle_refl 0) Hc Hr Z0) as S.
    assert (L : 0 < inject_Z (initial i) * ((1 + r) ^ months i - 1))
      by (apply Qmult_lt_0_compat; lra).
    generalize dependent ((1 + r) ^ months i). intros T S G L.
    generalize dependent (c * ((T - 1) / r) * (1 + r)). intros V S. lra.
Qed.

Lemma bond2_gain_nonneg_witness :
  exists res, calculate default_inputs = Ok res /\ 0 < bond2_gain (r_bond2 res).
Proof.
  destruct default_run as (res & E). exists res. split; [ exact E | ].
  destruct (bond2_gain_nonneg default_inputs res E) as [_ P];
    [ discriminate | discriminate | reflexivity | ].
  apply P. reflexivity.
Defined.

(** ** The projection against the summary *)

Lemma projection_loop_nth (P c r : Q) (months_list : list Z) :
  forall vs j m,
    projection_loop P c r months_list = Ok vs ->
    nth_error months_list j = Some m ->
    exists lump_sum sip,
      lumpsum_value P r m = Ok lump_sum /\ sip_value c r m = Ok sip /\
      nth_error vs j = Some (lump_sum + sip).
Proof.
  induction months_list as [ | m0 rest IH ]; intros vs j m H Hj.
  - destruct j; discriminate Hj.
  - cbn [projection_loop] in H. do 3 bind_inv H. injection H as <-.
    destruct j as [ | j ].
    + cbn in Hj. injection Hj as <-. exists v, v0. now repeat split.
    + cbn [nth_error] in Hj |- *. exact (IH _ _ _ E1 Hj).
Qed.

Lemma bond2_inv (initial : Z) (bond1_rate bond2_rate : Q) (months : Z) (b : Bond2) :
  bond2 initial bond1_rate bond2_rate months = Ok b ->
  exists lumpsum sip,
    lumpsum_value (inject_Z initial) (monthly_bond2_return bond2_rate) months
      = Ok lumpsum /\
    sip_value (monthly_bond1_interest initial bond1_rate)
      (monthly_bond2_return bond2_rate) months = Ok sip /\
    bond2_lumpsum b = lumpsum /\ bond2_sip b = sip /\
    total_bond2_value b = lumpsum + sip /\
    monthly_sip b = monthly_bond1_interest initial bond1_rate /\
    initial_bond2 b = inject_Z initial /\
    bond2_gain b
      = lumpsum + sip - inject_Z initial
        - monthly_bond1_interest initial bond1_rate * inject_Z months.
Proof.
  unfold bond2. intro H. do 2 bind_inv H. injection H as <-.
  exists v, v0. now repeat split.
Qed.

(** X9.  In every run that returns, the last point of the Bond 2 curve is
    the total Bond 2 value of the summary. *)
Theorem projection_ends_at_total_value (i : Inputs) (res : Results) :
  calculate i = Ok res ->
  nth_error (r_bond2_values res) (Z.to_nat (months i) - 1)
    = Some (total_bond2_value (r_bond2 res)).
Proof.
  intro H. destruct (calculate_months_pos i res H) as [Hn _].
  destruct (calculate_inv i res H)
    as (_ & _ & _ & Hb & _ & _ & _ & _ & _ & _ & Hv).
  destruct (bond2_inv _ _ _ _ _ Hb) as (lumpsum & sip & Hl & Hs & _ & _ & Ht & _).
  assert (Hm : nth_error (py_range 1 (months i + 1)) (Z.to_nat (months i) - 1)
               = Some (months i)).
  { rewrite (nth_error_nth' _ 0%Z) by (rewrite py_range_length; lia).
    rewrite py_range_nth by lia. f_equal. lia. }
  destruct (projection_loop_nth _ _ _ _ _ _ _ Hv Hm) as (l' & s' & Hl' & Hs' & Hnth).
  rewrite Hl in Hl'. rewrite Hs in Hs'.
  injection Hl' as <-. injection Hs' as <-. now rewrite Ht.
Qed.

Lemma projection_ends_at_total_value_witness :
  exists res, calculate default_inputs = Ok res /\
    nth_error (r_bond2_values res) 11 = Some (total_bond2_value (r_bond2 res)).
Proof.
  destruct default_run as (res & E). exists res. split; [ exact E | ].
  exact (projection_ends_at_total_value default_inputs res E).
Defined.

(** ** Net gain by investor type *)

(** X10.  On the Company branch (any investor type but Individual) the net
    gain is the pre-tax profit, total gain less loan interest, scaled by
    1 - tax_rate/100. *)
Theorem company_net_gain_after_tax (i : Inputs) (res : Results) :
  calculate i = Ok res ->
  contains "Individual" (investor_type i) = false ->
  r_net_gain res
    == (1 - tax_rate i / 100) * (r_total_gain res - r_total_loan_interest res).
Proof.
  intros H Hc.
  destruct (calculate_inv i res H)
    as (_ & _ & _ & _ & Htax & _ & Hb1 & Htg & Hng & _).
  rewrite Hng, Htg, Hb1, Htax. unfold tax. rewrite Hc.
  cbn [total_tax]. unfold net_gain, total_gain, bond1_total_interest. field.
Qed.

Lemma company_net_gain_after_tax_witness :
  let i := {| initial := 100000; bond1_rate := 14; bond2_rate := 10;
              loan_rate := 10; months := 12;
              investor_type := "Private Ltd (25%)"; custom_rate := 25;
              bond2_tax := 15 |} in
  exists res, calculate i = Ok res /\
    r_net_gain res == (1 - 25 / 100) * (r_total_gain res - r_total_loan_interest res).
Proof.
  intro i.
  destruct (calculate_returns i) as (res & E);
    [ discriminate | reflexivity | reflexivity | cbn; lia | ].
  exists res. split; [ exact E | ].
  exact (company_net_gain_after_tax i res E eq_refl).
Defined.

(** X11.  For an Individual investor with inputs in the widgets' ranges the
    total tax is not negative, so the net gain is at most the total gain
    less the loan interest. *)
Theorem individual_total_tax_nonneg (i : Inputs) (res : Results) :
  calculate i = Ok res -> in_widget_range i ->
  contains "Individual" (investor_type i) = true ->
  0 <= total_tax (r_tax res) /\
  r_net_gain res <= r_total_gain res - r_total_loan_interest res.
Proof.
  intros H (Hini & Hb1 & Hb2 & _ & Hn & _ & Hcr & Hbt) Hc.
  destruct (calculate_inv i res H)
    as (_ & _ & _ & Hb & Htax & _ & _ & _ & Hng & _).
  assert (Hb2' : 0 < bond2_rate i) by lra.
  assert (Hb1' : 0 <= bond1_rate i) by lra.
  assert (Hi : (0 <= initial i)%Z) by lia.
  pose proof (monthly_bond1_interest_nonneg _ _ Hi Hb1') as Hmbi.
  assert (Hg : 0 <= bond2_gain (r_bond2 res)).
  { rewrite (bond2_pos_rate _ _ _ _ Hb2') in Hb. injection Hb as Hb.
    rewrite <- Hb. cbn [bond2_gain].
    apply growth_covers_payments; try assumption.
    - change (inject_Z 0 <= inject_Z (initial i)). rewrite <- Zle_Qle. exact Hi.
    - now apply monthly_return_pos.
    - lia. }
  assert (Ht : 0 <= tax_rate i / 100).
  { apply Qle_shift_div_l; [ reflexivity | ]. unfold tax_rate. rewrite Hc.
    destruct (String.eqb (investor_type i) "Custom Rate"); lra. }
  assert (Hbt' : 0 <= bond2_tax i / 100)
    by (apply Qle_shift_div_l; [ reflexivity | ]; lra).
  assert (Hm : 0 <= inject_Z (months i))
    by (change (inject_Z 0 <= inject_Z (months i)); rewrite <- Zle_Qle; lia).
  assert (Htt : 0 <= total_tax (r_tax res)).
  { rewrite Htax. unfold tax. rewrite Hc. cbn [total_tax].
    assert (0 <= monthly_bond1_interest (initial i) (bond1_rate i)
                 * inject_Z (months i) * (tax_rate i / 100))
      by (apply Qmult_le_0_compat; [ apply Qmult_le_0_compat | ]; assumption).
    assert (0 <= bond2_gain (r_bond2 res) * (bond2_tax i / 100))
      by (apply Qmult_le_0_compat; assumption).
    lra. }
  split; [ exact Htt | ].
  rewrite Hng. unfold net_gain. lra.
Qed.

Lemma individual_total_tax_nonneg_witness :
  exists res, calculate default_inputs = Ok res /\
    0 <= total_tax (r_tax res) /\
    r_net_gain res <= r_total_gain res - r_total_loan_interest res.
Proof.
  destruct default_run as (res & E). exists res. split; [ exact E | ].
  exact (individual_total_tax_nonneg default_inputs res E
           default_inputs_in_range eq_refl).
Defined.

(** ** The capital does not matter to the annualized return *)

(** X12.  With positive loan and Bond 2 rates, two runs that differ only in
    the invested capital have the same annualized return: every amount is
    proportional to the capital, and the return is taken per unit of it. *)
Theorem annualized_return_scale_free (i : Inputs) (p : Z) (res res' : Results) :
  calculate i = Ok res -> calculate (with_initial i p) = Ok res' ->
  0 < loan_rate i -> 0 < bond2_rate i ->
  r_annualized_return res == r_annualized_return res'.
Proof.
  intros H H' Hl Hb.
  pose proof (total_loan_interest_closed i res H Hl) as S.
  pose proof (total_loan_interest_closed (with_initial i p) res' H' Hl) as S'.
  destruct (calculate_pos_rate_rows i res H Hl) as (Hr & Hn & He & _).
  destruct (calculate_pos_rate_rows (with_initial i p) res' H' Hl)
    as (_ & _ & He' & _).
  destruct (calculate_inv i res H)
    as (_ & _ & _ & Hb2 & Htax & _ & Hb1 & Htg & Hng & Ha & _).
  destruct (calculate_inv (with_initial i p) res' H')
    as (_ & _ & _ & Hb2' & Htax' & _ & Hb1' & Htg' & Hng' & Ha' & _).
  apply annualized_return_inv in Ha. destruct Ha as (Hp & Hm & Ea).
  apply annualized_return_inv in Ha'. destruct Ha' as (Hp' & _ & Ea').
  rewrite (bond2_pos_rate _ _ _ _ Hb) in Hb2. injection Hb2 as Hb2.
  rewrite (bond2_pos_rate _ _ _ _ Hb) in Hb2'. injection Hb2' as Hb2'.
  cbn [with_initial initial bond1_rate bond2_rate loan_rate months
       investor_type bond2_tax] in *.
  change (tax_rate (with_initial i p)) with (tax_rate i) in Htax'.
  pose proof (growth_gt_1 _ _ Hr Hn) as G.
  rewrite Ea, Ea', Hng, Hng', Htg, Htg', Hb1, Hb1', Htax, Htax'.
  rewrite <- Hb2, <- Hb2'. cbn [bond2_gain].
  rewrite He in S. rewrite He' in S'.
  unfold net_gain, total_gain, bond1_total_interest, tax.
  destruct (contains "Individual" (investor_type i)); cbn [total_tax];
    rewrite S, S'; clear S S'; unfold pmt_value, monthly_bond1_interest;
    generalize dependent ((1 + rate_per_period (loan_rate i)) ^ months i);
    intros T G;
    generalize ((1 + monthly_bond2_return (bond2_rate i)) ^ months i); intro T2;
    generalize ((T2 - 1) / monthly_bond2_return (bond2_rate i)); intro A;
    field; repeat split; try assumption; lra.
Qed.

Lemma annualized_return_scale_free_witness :
  exists res res',
    calculate default_inputs = Ok res /\
    calculate (with_initial default_inputs 250000) = Ok res' /\
    r_annualized_return res == r_annualized_return res'.
Proof.
  destruct default_run as (res & E).
  destruct (calculate_returns (with_initial default_inputs 250000)) as (res' & E');
    [ discriminate | reflexivity | reflexivity | cbn; lia | ].
  exists res, res'. split; [ exact E | split; [ exact E' | ] ].
  exact (annualized_return_scale_free default_inputs 250000 res res' E E'
           eq_refl eq_refl).
Defined.

(** ** Inputs the widgets keep out *)

(** X13.  With a negative tenure and a positive loan rate the run ends in a
    KeyError: the EMI is computed, the loop runs over no month, and the
    empty frame has no "Interest" column to sum. *)
Theorem negative_tenure_raises_key_error (i : Inputs) :
  (months i < 0)%Z -> 0 < loan_rate i -> calculate i = Raise KeyError.
Proof.
  intros Hn Hrate.
  pose proof (rate_per_period_pos _ Hrate) as Hr.
  set (r := rate_per_period (loan_rate i)) in *.
  assert (G : (1 + r) ^ months i < 1).
  { change 1 with ((1 + r) ^ 0) at 2. apply Qpower_lt_compat_l; [ exact Hn | lra ]. }
  unfold calculate, emi, numpy_financial.pmt. fold r.
  rewrite np_power_ok by lra. cbn [bind].
  rewrite Qeq_bool_false by lra. cbv zeta iota.
  rewrite np_truediv_ok.
  2:{ generalize dependent ((1 + r) ^ months i). intros T G E.
      assert (E' : (1 + r * 0) * (T - 1) / r * r == T - 1) by (field; lra).
      rewrite E in E'. lra. }
  cbn [bind]. unfold loan_schedule, py_range.
  replace (Z.to_nat (months i + 1 - 1)) with 0%nat by lia.
  reflexivity.
Qed.

Lemma negative_tenure_raises_key_error_witness :
  calculate {| initial := 100000; bond1_rate := 14; bond2_rate := 10;
               loan_rate := 10; months := -6;
               investor_type := "Individual (30%)"; custom_rate := 25;
               bond2_tax := 15 |} = Raise KeyError.
Proof.
  apply negative_tenure_raises_key_error; reflexivity.
Defined.

(** X14.  With a Bond 2 rate of 0 (and a positive loan rate, at least one
    month) the run ends in a ZeroDivisionError: the loan schedule and the
    lump sum are computed, then the SIP formula divides by the rate. *)
Theorem zero_bond2_rate_raises (i : Inputs) :
  bond2_rate i == 0 -> 0 < loan_rate i -> (1 <= months i)%Z ->
  calculate i = Raise ZeroDivisionError.
Proof.
  intros Hb Hrate Hn.
  pose proof (rate_per_period_pos _ Hrate) as Hr.
  pose proof (monthly_return_zero _ Hb) as Hz.
  unfold calculate, emi.
  rewrite pmt_ok by assumption. cbn [bind].
  rewrite loan_schedule_pos_rate by assumption. cbn [bind].
  unfold total_loan_interest. rewrite column_sum_nonempty.
  2:{ intro E. apply (f_equal (@List.length Row)) in E.
      unfold consecutive in E.
      rewrite schedule_rows_length, length_map, length_seq in E.
      cbn in E. lia. }
  cbn [bind]. unfold bond2, lumpsum_value.
  rewrite py_pow_ok by lra. cbn [bind].
  rewrite sip_value_zero_rate by exact Hz. reflexivity.
Qed.

Lemma zero_bond2_rate_raises_witness :
  calculate {| initial := 100000; bond1_rate := 14; bond2_rate := 0;
               loan_rate := 10; months := 12;
               investor_type := "Individual (30%)"; custom_rate := 25;
               bond2_tax := 15 |} = Raise ZeroDivisionError.
Proof.
  apply zero_bond2_rate_raises; [ reflexivity | reflexivity | cbn; lia ].
Defined.

(** ** What is shown against what is computed *)

(** X15.  The rate written beside the Bond 2 tax is the rate that was
    applied to the Bond 2 gain, whatever the investor type. *)
Theorem shown_bond2_rate_is_applied (investor_type : string)
    (tax_rate bond2_tax mbi : Q) (months : Z) (bond2_gain tli : Q) :
  bond2_tax_amount (tax investor_type tax_rate bond2_tax mbi months bond2_gain tli)
    = bond2_gain * (shown_bond2_tax_rate investor_type tax_rate bond2_tax / 100).
Proof.
  unfold tax, shown_bond2_tax_rate.
  destruct (contains "Individual" investor_type); reflexivity.
Qed.

(** X16.  Of the three investor types only "Private Ltd (25%)" gets the loan
    interest deduction shown.  With "Custom Rate" and inputs in the widgets'
    ranges a positive deduction is taken off the total tax and shown
    nowhere. *)
Theorem deduction_shown_for_private_only (i : Inputs) (res : Results) :
  calculate i = Ok res -> in_widget_range i ->
  (shows_loan_interest_deduction (investor_type i) = true
     <-> investor_type i = "Private Ltd (25%)"%string) /\
  (investor_type i = "Custom Rate"%string ->
     shows_loan_interest_deduction (investor_type i) = false /\
     0 < loan_interest_deduction (r_tax res) /\
     total_tax (r_tax res)
       = bond1_tax (r_tax res) + bond2_tax_amount (r_tax res)
         - loan_interest_deduction (r_tax res)).
Proof.
  intros H (Hini & _ & _ & Hloan & _ & Hty & Hcr & _).
  split.
  - cbn in Hty. destruct Hty as [<- | [<- | [<- | []]]]; cbn; split;
      intro E; (reflexivity || discriminate E).
  - intro Ec.
    assert (Hrate : 0 < loan_rate i) by lra.
    assert (Hpos : (0 < initial i)%Z) by lia.
    pose proof (total_loan_interest_pos i res H Hrate Hpos) as Ht.
    destruct (calculate_inv i res H) as (_ & _ & _ & _ & Htax & _).
    rewrite Htax. unfold tax, tax_rate. rewrite Ec.
    cbn [String.eqb Ascii.eqb Bool.eqb contains prefix
         loan_interest_deduction total_tax bond1_tax bond2_tax_amount].
    split; [ reflexivity | split; [ | reflexivity ] ].
    apply Qmult_lt_0_compat; [ exact Ht | ].
    apply Qlt_shift_div_l; [ reflexivity | ]. lra.
Qed.

Lemma deduction_shown_for_private_only_witness :
  let i := {| initial := 100000; bond1_rate := 14; bond2_rate := 10;
              loan_rate := 10; months := 12; investor_type := "Custom Rate";
              custom_rate := 20; bond2_tax := 15 |} in
  exists res, calculate i = Ok res /\
    shows_loan_interest_deduction (investor_type i) = false /\
    0 < loan_interest_deduction (r_tax res).
Proof.
  intro i.
  assert (R : in_widget_range i).
  { unfold in_widget_range, i; cbn.
    repeat split; try lia; try discriminate. right; right; now left. }
  destruct (calculate_returns i) as (res & E);
    [ discriminate | reflexivity | reflexivity | cbn; lia | ].
  exists res. split; [ exact E | ].
  destruct (deduction_shown_for_private_only i res E R) as [_ C].
  destruct (C eq_refl) as (S & D & _). split; [ exact S | exact D ].
Defined.

(** ** The shape of the schedule and of the chart *)

Lemma nth_error_map_inv {A B : Type} (f : A -> B) (l : list A) (j : nat) (y : B) :
  nth_error (map f l) j = Some y -> exists x, nth_error l j = Some x /\ f x = y.
Proof.
  revert j. induction l as [ | a l IH ]; intros [ | j ] H; try discriminate H.
  - cbn in H. injection H as <-. now exists a.
  - cbn in H. exact (IH j H).
Qed.

(** X17.  At a positive loan rate and principal the interest part shrinks
    and the principal part grows from each month to any later one. *)
Theorem interest_falls_principal_rises (i : Inputs) (res : Results) :
  calculate i = Ok res -> 0 < loan_rate i -> (0 < initial i)%Z ->
  forall row1 row2,
    In row1 (r_loan_schedule res) -> In row2 (r_loan_schedule res) ->
    (Month row1 < Month row2)%Z ->
    Interest row2 < Interest row1 /\ Principal row1 < Principal row2.
Proof.
  intros H Hrate Hini row1 row2 H1 H2 Hlt.
  destruct (calculate_inv i res H) as (He & Hs & _).
  destruct (emi_inv _ _ _ _ He) as (total & Hp & _).
  destruct (loan_loop_inv _ _ _ _ _ Hp _ _ _ Hs) as [_ Hsplit].
  destruct (calculate_pos_rate_rows i res H Hrate) as (Hr & Hn & _ & Hrows).
  pose proof (pos_rate_rows _ _ (inject_Z (initial i)) Hr Hn (r_emi res)) as F.
  rewrite <- Hrows in F. rewrite Forall_forall in F, Hsplit.
  assert (Hpv : 0 < inject_Z (initial i))
    by (change (inject_Z 0 < inject_Z (initial i)); rewrite <- Zlt_Qlt; exact Hini).
  destruct (F row1 H1) as (_ & _ & _ & HI1). destruct (F row2 H2) as (_ & _ & _ & HI2).
  destruct (Hsplit row1 H1) as [_ S1]. destruct (Hsplit row2 H2) as [_ S2].
  assert (L : (Month row1 - 1 < Month row2 - 1)%Z) by lia.
  pose proof (balance_decreasing _ _ _ Hr Hn _ _ Hpv L) as D.
  assert (HI : Interest row2 < Interest row1)
    by (rewrite HI1, HI2; apply Qmult_lt_compat_r; assumption).
  split; [ exact HI | lra ].
Qed.

Lemma interest_falls_principal_rises_witness :
  exists res, calculate default_inputs = Ok res /\
    forall row1 row2,
      In row1 (r_loan_schedule res) -> In row2 (r_loan_schedule res) ->
      (Month row1 < Month row2)%Z ->
      Interest row2 < Interest row1 /\ Principal row1 < Principal row2.
Proof.
  destruct default_run as (res & E). exists res. split; [ exact E | ].
  exact (interest_falls_principal_rises default_inputs res E eq_refl eq_refl).
Defined.

(** X18.  With a positive principal and positive loan and Bond 2 rates and
    a non-negative Bond 1 rate, the Bond 2 curve of the chart lies above the
    loan curve at every month: the Bond 2 value is at least the principal
    plus the contributions so far, the loan outstanding is below the
    principal. *)
Theorem bond2_curve_above_loan_curve (i : Inputs) (res : Results) :
  calculate i = Ok res ->
  (0 < initial i)%Z -> 0 <= bond1_rate i -> 0 < bond2_rate i -> 0 < loan_rate i ->
  forall j value outstanding,
    nth_error (r_bond2_values res) j = Some value ->
    nth_error (loan_outstanding (r_loan_schedule res)) j = Some outstanding ->
    inject_Z (initial i)
      + monthly_bond1_interest (initial i) (bond1_rate i) * inject_Z (1 + Z.of_nat j)
      <= value /\
    outstanding < inject_Z (initial i).
Proof.
  intros H Hini Hb1 Hb2 Hrate j value outstanding Hv Ho.
  destruct (calculate_inv i res H)
    as (_ & _ & _ & _ & _ & _ & _ & _ & _ & _ & Hvs).
  destruct (calculate_pos_rate_rows i res H Hrate) as (Hr & Hn & _ & Hrows).
  pose proof (monthly_return_pos _ Hb2) as Hg.
  assert (Hpv : 0 < inject_Z (initial i))
    by (change (inject_Z 0 < inject_Z (initial i)); rewrite <- Zlt_Qlt; exact Hini).
  split.
  - unfold bond2_values in Hvs. rewrite projection_loop_ok in Hvs by exact Hg.
    injection Hvs as Hvs. rewrite <- Hvs in Hv.
    apply nth_error_map_inv in Hv. destruct Hv as (m & Hm & <-).
    assert (Hj : (j < Z.to_nat (months i + 1 - 1))%nat).
    { rewrite <- py_range_length. apply nth_error_Some. congruence. }
    rewrite (nth_error_nth' _ 0%Z) in Hm by (rewrite py_range_length; exact Hj).
    rewrite py_range_nth in Hm by exact Hj.
    assert (Em : m = (1 + Z.of_nat j)%Z) by congruence. subst m. clear Hm.
    unfold portfolio_value.
    assert (Hc : 0 <= monthly_bond1_interest (initial i) (bond1_rate i))
      by (apply monthly_bond1_interest_nonneg; [ lia | exact Hb1 ]).
    assert (Hm : (0 <= 1 + Z.of_nat j)%Z) by lia.
    pose proof (growth_covers_payments _ _ _ _ (Qlt_le_weak _ _ Hpv) Hc Hg Hm) as G.
    revert G.
    generalize (monthly_bond1_interest (initial i) (bond1_rate i)
                * inject_Z (1 + Z.of_nat j)).
    generalize ((1 + monthly_bond2_return (bond2_rate i)) ^ (1 + Z.of_nat j)).
    intros T. generalize ((T - 1) / monthly_bond2_return (bond2_rate i)).
    intros A. generalize (inject_Z (initial i) * T).
    generalize (monthly_bond1_interest (initial i) (bond1_rate i) * A
                * (1 + monthly_bond2_return (bond2_rate i))).
    intros V L C G. lra.
  - unfold loan_outstanding in Ho.
    apply nth_error_map_inv in Ho. destruct Ho as (row & Hrow & <-).
    apply nth_error_In in Hrow.
    pose proof (pos_rate_rows _ _ (inject_Z (initial i)) Hr Hn (r_emi res)) as F.
    rewrite <- Hrows in F. rewrite Forall_forall in F.
    destruct (F row Hrow) as (Hm & Hb & _). rewrite Hb.
    rewrite <- (balance_start _ (months i) (inject_Z (initial i)) Hr) at 2.
    apply balance_decreasing; try assumption. lia.
Qed.

Lemma bond2_curve_above_loan_curve_witness :
  exists res, calculate default_inputs = Ok res /\
    forall j value outstanding,
      nth_error (r_bond2_values res) j = Some value ->
      nth_error (loan_outstanding (r_loan_schedule res)) j = Some outstanding ->
      outstanding < 100000 /\ 100000 <= value.
Proof.
  destruct default_run as (res & E). exists res. split; [ exact E | ].
  intros j value outstanding Hv Ho.
  assert (Hb1 : 0 <= bond1_rate default_inputs) by discriminate.
  destruct (bond2_curve_above_loan_curve default_inputs res E eq_refl
              Hb1 eq_refl eq_refl j value outstanding Hv Ho) as [A B].
  split; [ exact B | ].
  apply Qle_trans with (2 := A).
  assert (C : 0 <= monthly_bond1_interest 100000 14 * inject_Z (1 + Z.of_nat j)).
  { apply Qmult_le_0_compat; [ discriminate | ].
    change (inject_Z 0 <= inject_Z (1 + Z.of_nat j)). rewrite <- Zle_Qle. lia. }
  change (inject_Z (initial default_inputs)) with 100000.
  change (monthly_bond1_interest (initial default_inputs) (bond1_rate default_inputs))
    with (monthly_bond1_interest 100000 14).
  lra.
Defined.
